(** * asyncstream.readers: streaming decode and row materialisation

    A shallow embedding of [src/asyncstream/readers.py] and its
    verification against the natural-language specification.

    - Python [bytes] are lists of [Byte.byte]; Python [str] are lists of
      Unicode code points ([N]).
    - An async generator is modelled by the trace it produces when driven to
      exhaustion over a finite byte-stream source: which chunks it takes
      from the source ([Pull]), which items it yields ([Yield]), and how it
      ends ([Stop] for a normal return, [Raise] for an exception).  Pulling
      one item ([anext]) consumes the trace up to its first [Yield].
    - The external collaborators (codecs, row tokenizer, table decoders)
      are the fields of a record [Env]. *)

From Stdlib Require Import List ZArith NArith Lia Bool String Ascii.
From Stdlib Require Import Strings.Byte.
Import ListNotations.

Set Implicit Arguments.
Local Open Scope list_scope.

(** ** Python values *)

Definition bytes := list byte.
Definition text := list N.
Definition Row := list text.

(** Exceptions the code can surface, by class. *)
Inductive exn : Type :=
| ValueError (msg : string)
| TypeError
| UnboundLocalError (name : string)
| UnicodeDecodeError
| RuntimeError
| StopAsyncIteration
| CodecError
| CsvError (msg : string)
| TableDecodeError.

Definition exn_name (e : exn) : string :=
  match e with
  | ValueError _ => "ValueError"
  | TypeError => "TypeError"
  | UnboundLocalError _ => "UnboundLocalError"
  | UnicodeDecodeError => "UnicodeDecodeError"
  | RuntimeError => "RuntimeError"
  | StopAsyncIteration => "StopAsyncIteration"
  | CodecError => "CodecError"
  | CsvError _ => "Error"
  | TableDecodeError => "TableDecodeError"
  end%string.

Inductive result (A : Type) : Type :=
| Ok (a : A)
| Err (e : exn).
Arguments Ok {A} a.
Arguments Err {A} e.

Definition len (b : bytes) : Z := Z.of_nat (List.length b).

(** [bytes_of_string s]: the bytes of an ASCII literal. *)
Definition bytes_of_string (s : string) : bytes := list_byte_of_string s.

Definition LF : byte := x0a.
Definition CR : byte := x0d.

Definition is_lf (c : byte) : bool := Byte.eqb c LF.
Definition is_cr (c : byte) : bool := Byte.eqb c CR.

(** ** [bytes.splitlines(True)]

    The scan of CPython's [stringlib_splitlines] with [keepends] set: a line
    ends after a line feed, after a carriage return, or after a carriage
    return immediately followed by a line feed; a last line with no
    terminator is kept when it is not empty.  [cur] is the part of the
    current line already scanned. *)
Fixpoint splitlines_from (cur : bytes) (s : bytes) : list bytes :=
  match s with
  | [] => match cur with [] => [] | _ :: _ => [cur] end
  | c :: s' =>
      if is_lf c then (cur ++ [c]) :: splitlines_from [] s'
      else if is_cr c then
        match s' with
        | c' :: s'' =>
            if is_lf c' then (cur ++ [c; c']) :: splitlines_from [] s''
            else (cur ++ [c]) :: splitlines_from [] s'
        | [] => [cur ++ [c]]
        end
      else splitlines_from (cur ++ [c]) s'
  end.

Definition splitlines (s : bytes) : list bytes := splitlines_from [] s.

(** [lines[:-1]] and [lines[-1]] (the latter guarded by [if lines] in the
    source, hence the default). *)
Definition but_last (A : Type) (l : list A) : list A := removelast l.
Definition last_line (l : list bytes) : bytes := last l [].
Definition truthy (A : Type) (l : list A) : bool :=
  match l with [] => false | _ :: _ => true end.

(** ** Async generators as traces *)

Inductive agen (A : Type) : Type :=
| Stop
| Raise (e : exn)
| Pull (k : agen A)
| Yield (a : A) (k : agen A).
Arguments Stop {A}.
Arguments Raise {A} e.
Arguments Pull {A} k.
Arguments Yield {A} a k.

(** [for x in xs: yield x], followed by [k]. *)
Fixpoint yield_all (A : Type) (xs : list A) (k : agen A) : agen A :=
  match xs with
  | [] => k
  | x :: xs' => Yield x (yield_all xs' k)
  end.

(** How a generator ends. *)
Inductive ending : Type :=
| Returned
| Raised (e : exn).

Fixpoint agen_yields (A : Type) (g : agen A) : list A :=
  match g with
  | Stop | Raise _ => []
  | Pull k => agen_yields k
  | Yield a k => a :: agen_yields k
  end.

Fixpoint agen_ending (A : Type) (g : agen A) : ending :=
  match g with
  | Stop => Returned
  | Raise e => Raised e
  | Pull k | Yield _ k => agen_ending k
  end.

(** Number of source chunks a generator consumes over its whole life. *)
Fixpoint agen_pulls (A : Type) (g : agen A) : nat :=
  match g with
  | Stop | Raise _ => 0
  | Pull k => S (agen_pulls k)
  | Yield _ k => agen_pulls k
  end.

(** [await g.__anext__()]: run to the next yield.  A generator that has
    returned or raised is finished; a finished generator answers
    [StopAsyncIteration]. *)
Fixpoint anext (A : Type) (g : agen A) : result A * agen A :=
  match g with
  | Stop => (Err StopAsyncIteration, Stop)
  | Raise e => (Err e, Stop)
  | Pull k => anext k
  | Yield a k => (Ok a, k)
  end.

(** Source chunks consumed by one [anext]. *)
Fixpoint anext_pulls (A : Type) (g : agen A) : nat :=
  match g with
  | Stop | Raise _ | Yield _ _ => 0
  | Pull k => S (anext_pulls k)
  end.

(** The byte-stream source [fd], iterated directly: every chunk taken is
    handed over as it is. *)
Fixpoint aiter_source (fd : list bytes) : agen bytes :=
  match fd with
  | [] => Stop
  | buf :: fd' => Pull (Yield buf (aiter_source fd'))
  end.

(** ** Incremental decompressors *)

Record Codec : Type := {
  dstate : Type;
  dinit : dstate;
  decompress : dstate -> bytes -> result (bytes * dstate);
  flush : dstate -> result bytes
}.

(** [open_gzip]: [out_buf] is the retained fragment. *)
Fixpoint open_gzip_loop (c : Codec) (decomp : dstate c) (out_buf : bytes)
    (fd : list bytes) : agen bytes :=
  match fd with
  | buf :: fd' =>
      Pull
        match decompress c decomp buf with
        | Err e => Raise e
        | Ok (data, decomp') =>
            let out_buf := out_buf ++ data in
            let lines := splitlines out_buf in
            yield_all (but_last lines)
              (open_gzip_loop c decomp'
                 (if truthy lines then last_line lines else []) fd')
        end
  | [] =>
      match flush c decomp with
      | Err e => Raise e
      | Ok data => yield_all (splitlines (out_buf ++ data)) Stop
      end
  end.

Definition open_gzip (c : Codec) (fd : list bytes) : agen bytes :=
  open_gzip_loop c (dinit c) [] fd.

(** [open_bzip2]: the last line is yielded inside the loop, after every
    chunk, and is also kept as [out_buf]. *)
Fixpoint open_bzip2_loop (c : Codec) (decomp : dstate c) (out_buf : bytes)
    (fd : list bytes) : agen bytes :=
  match fd with
  | buf :: fd' =>
      Pull
        match decompress c decomp buf with
        | Err e => Raise e
        | Ok (data, decomp') =>
            let out_buf := out_buf ++ data in
            let lines := splitlines out_buf in
            yield_all (but_last lines)
              (let out_buf := if truthy lines then last_line lines else [] in
               let k := open_bzip2_loop c decomp' out_buf fd' in
               if truthy lines then Yield (last_line lines) k else k)
        end
  | [] => Stop
  end.

Definition open_bzip2 (c : Codec) (fd : list bytes) : agen bytes :=
  open_bzip2_loop c (dinit c) [] fd.

(** [open_zstd]: [lines] is a local bound only by the loop body; [None] is
    the unbound local. *)
Fixpoint open_zstd_loop (c : Codec) (decomp : dstate c) (out_buf : bytes)
    (lines : option (list bytes)) (fd : list bytes) : agen bytes :=
  match fd with
  | buf :: fd' =>
      Pull
        match decompress c decomp buf with
        | Err e => Raise e
        | Ok (data, decomp') =>
            let out_buf := out_buf ++ data in
            let lines := splitlines out_buf in
            yield_all (but_last lines)
              (open_zstd_loop c decomp'
                 (if truthy lines then last_line lines else [])
                 (Some lines) fd')
        end
  | [] =>
      match lines with
      | None => Raise (UnboundLocalError "lines")
      | Some lines =>
          if truthy lines then Yield (last_line lines) Stop else Stop
      end
  end.

Definition open_zstd (c : Codec) (fd : list bytes) : agen bytes :=
  open_zstd_loop c (dinit c) [] None fd.

(** [open_gzip_block]: one block per chunk, then what the flush gives. *)
Fixpoint open_gzip_block_loop (c : Codec) (decomp : dstate c)
    (fd : list bytes) : agen bytes :=
  match fd with
  | buf :: fd' =>
      Pull
        match decompress c decomp buf with
        | Err e => Raise e
        | Ok (data, decomp') =>
            Yield data (open_gzip_block_loop c decomp' fd')
        end
  | [] =>
      match flush c decomp with
      | Err e => Raise e
      | Ok data => Yield data Stop
      end
  end.

Definition open_gzip_block (c : Codec) (fd : list bytes) : agen bytes :=
  open_gzip_block_loop c (dinit c) fd.

(** [open_bzip2_block]: one block per chunk, no flush. *)
Fixpoint open_bzip2_block_loop (c : Codec) (decomp : dstate c)
    (fd : list bytes) : agen bytes :=
  match fd with
  | buf :: fd' =>
      Pull
        match decompress c decomp buf with
        | Err e => Raise e
        | Ok (data, decomp') =>
            Yield data (open_bzip2_block_loop c decomp' fd')
        end
  | [] => Stop
  end.

Definition open_bzip2_block (c : Codec) (fd : list bytes) : agen bytes :=
  open_bzip2_block_loop c (dinit c) fd.

(** [open_zstd_block]: as [open_bzip2_block], over the zstd
    decompression object. *)
Fixpoint open_zstd_block_loop (c : Codec) (dobj : dstate c)
    (fd : list bytes) : agen bytes :=
  match fd with
  | buf :: fd' =>
      Pull
        match decompress c dobj buf with
        | Err e => Raise e
        | Ok (data, dobj') => Yield data (open_zstd_block_loop c dobj' fd')
        end
  | [] => Stop
  end.

Definition open_zstd_block (c : Codec) (fd : list bytes) : agen bytes :=
  open_zstd_block_loop c (dinit c) fd.

(** ** [bytes.decode('utf-8')]

    Strict UTF-8: shortest forms only, no surrogates, nothing above
    U+10FFFF.  [None] is [UnicodeDecodeError]. *)
Definition in_range (lo hi : N) (b : byte) : bool :=
  ((lo <=? Byte.to_N b) && (Byte.to_N b <=? hi))%N.

Definition cont_bits (b : byte) : N := (Byte.to_N b - 128)%N.

Fixpoint decode_utf8 (s : bytes) : option text :=
  match s with
  | [] => Some []
  | b0 :: r0 =>
      if in_range 0 127 b0 then
        option_map (cons (Byte.to_N b0)) (decode_utf8 r0)
      else if in_range 194 223 b0 then
        match r0 with
        | b1 :: r1 =>
            if in_range 128 191 b1 then
              option_map (cons ((Byte.to_N b0 - 192) * 64 + cont_bits b1)%N)
                (decode_utf8 r1)
            else None
        | _ => None
        end
      else if in_range 224 239 b0 then
        match r0 with
        | b1 :: b2 :: r2 =>
            let lo := if in_range 224 224 b0 then 160%N else 128%N in
            let hi := if in_range 237 237 b0 then 159%N else 191%N in
            if in_range lo hi b1 && in_range 128 191 b2 then
              option_map
                (cons ((Byte.to_N b0 - 224) * 4096 + cont_bits b1 * 64
                       + cont_bits b2)%N)
                (decode_utf8 r2)
            else None
        | _ => None
        end
      else if in_range 240 244 b0 then
        match r0 with
        | b1 :: b2 :: b3 :: r3 =>
            let lo := if in_range 240 240 b0 then 144%N else 128%N in
            let hi := if in_range 244 244 b0 then 143%N else 191%N in
            if in_range lo hi b1 && in_range 128 191 b2 && in_range 128 191 b3
            then
              option_map
                (cons ((Byte.to_N b0 - 240) * 262144 + cont_bits b1 * 4096
                       + cont_bits b2 * 64 + cont_bits b3)%N)
                (decode_utf8 r3)
            else None
        | _ => None
        end
      else None
  end.

(** ** External collaborators *)

(** A materialised table: its column labels and its rows; a cell is either
    [bytes] or another value, kept by its [str()]. *)
Inductive cell : Type :=
| CellBytes (b : bytes)
| CellValue (s : text).

Record Table : Type := {
  columns : list text;
  itertuples : list (list cell)
}.

(** Extra positional and keyword arguments of the tokenizer. *)
Definition fmtparams := list (string * string).

(** [csv_reader E buffer dialect args] are the rows [csv.reader] produces
    over the lines of [buffer], and the exception that stops it, if any. *)
Record Env : Type := {
  zlib_decompressobj : Codec;
  bz2_decompressor : Codec;
  zstd_decompressobj : Codec;
  csv_reader : list text -> string -> fmtparams -> list Row * option exn;
  pd_read_parquet : bytes -> result Table;
  orc_read_table : bytes -> result Table
}.

(** ** The text path *)

(** [for row in csv.reader(...): yield row], followed by [k]. *)
Definition yield_rows (rows : list Row * option exn) (k : agen Row)
    : agen Row :=
  yield_all (fst rows)
    match snd rows with
    | Some e => Raise e
    | None => k
    end.

(** The loop of [reader_compressed] over the line generator [lines]. *)
Fixpoint batch_loop (E : Env) (buffer_size : Z) (dialect : string)
    (args : fmtparams) (buffer : list text) (buffer_len : Z)
    (lines : agen bytes) : agen Row :=
  match lines with
  | Stop =>
      if truthy buffer then yield_rows (csv_reader E buffer dialect args) Stop
      else Stop
  | Raise e => Raise e
  | Pull k =>
      Pull (batch_loop E buffer_size dialect args buffer buffer_len k)
  | Yield line k =>
      let buffer_len := (buffer_len + len line)%Z in
      match decode_utf8 line with
      | None => Raise UnicodeDecodeError
      | Some s =>
          let buffer := buffer ++ [s] in
          if (buffer_size <=? buffer_len)%Z then
            yield_rows (csv_reader E buffer dialect args)
              (batch_loop E buffer_size dialect args [] 0 k)
          else batch_loop E buffer_size dialect args buffer buffer_len k
      end
  end.

(** The line generator selected by [compression]. *)
Definition select_lines (E : Env) (fd : list bytes)
    (compression : option string) : result (agen bytes) :=
  match compression with
  | None => Ok (aiter_source fd)
  | Some c =>
      if (c =? "gzip")%string then Ok (open_gzip (zlib_decompressobj E) fd)
      else if (c =? "bzip2")%string then
        Ok (open_bzip2 (bz2_decompressor E) fd)
      else if (c =? "zstd")%string then
        Ok (open_zstd (zstd_decompressobj E) fd)
      else Err (ValueError ("Invalid compression " ++ c))
  end.

Definition reader_compressed (E : Env) (fd : list bytes)
    (compression : option string) (buffer_size : Z) (dialect : string)
    (args : fmtparams) : agen Row :=
  match select_lines E fd compression with
  | Err e => Raise e
  | Ok lines => batch_loop E buffer_size dialect args [] 0 lines
  end.



(** ** The columnar path *)

Fixpoint pull_all (A : Type) (fd : list bytes) (k : agen A) : agen A :=
  match fd with
  | [] => k
  | _ :: fd' => Pull (pull_all fd' k)
  end.

Fixpoint row_texts (row : list cell) : option Row :=
  match row with
  | [] => Some []
  | CellBytes b :: row' =>
      match decode_utf8 b with
      | None => None
      | Some s => option_map (cons s) (row_texts row')
      end
  | CellValue s :: row' => option_map (cons s) (row_texts row')
  end.

Fixpoint table_rows (rows : list (list cell)) : agen Row :=
  match rows with
  | [] => Stop
  | row :: rows' =>
      match row_texts row with
      | None => Raise UnicodeDecodeError
      | Some r => Yield r (table_rows rows')
      end
  end.

(** [open_arrow_pandas]: spool every chunk of the source into the
    temporary file, then hand the whole buffer to [encoder.read_table];
    [k] is what the caller does with the table. *)
Definition open_arrow_pandas (read_table : bytes -> result Table)
    (fd : list bytes) (k : Table -> agen Row) : agen Row :=
  pull_all fd
    match read_table (List.concat fd) with
    | Err e => Raise e
    | Ok table => k table
    end.

(** [open_parquet_pandas]: the same with [pd.read_parquet]. *)
Definition open_parquet_pandas (E : Env) (fd : list bytes)
    (k : Table -> agen Row) : agen Row :=
  pull_all fd
    match pd_read_parquet E (List.concat fd) with
    | Err e => Raise e
    | Ok table => k table
    end.

Definition open_orc_pandas (E : Env) (fd : list bytes)
    (k : Table -> agen Row) : agen Row :=
  open_arrow_pandas (orc_read_table E) fd k.

Definition reader_columnar (E : Env) (fd : list bytes) (encoding : string)
    (compression : option string) (buffer_size : Z) (ignore_header : bool)
    : agen Row :=
  let rows table :=
    if negb ignore_header then
      Yield (columns table) (table_rows (itertuples table))
    else table_rows (itertuples table) in
  if (encoding =? "parquet")%string then open_parquet_pandas E fd rows
  else if (encoding =? "orc")%string then open_orc_pandas E fd rows
  else Raise (ValueError ("Invalid encoding " ++ encoding)).

(** ** [AsyncReader] *)

(** What [self._header] holds: [None], a header given to the constructor,
    or the awaitable made by [self._aiter.__anext__()], which advances the
    generator when it is awaited and cannot be awaited twice. *)
Inductive header_slot : Type :=
| HeaderNone
| HeaderGiven (h : list text)
| AnextPending
| AnextAwaited.

Record AsyncReader : Type := {
  _aiter : agen Row;
  _ignore_header : bool;
  _header : header_slot
}.

(** [not self._header] *)
Definition header_falsy (h : header_slot) : bool :=
  match h with
  | HeaderNone => true
  | HeaderGiven h => negb (truthy h)
  | AnextPending | AnextAwaited => false
  end.

(** The guarded assignment shared by [header] and [__anext__]:
    [self._header = self._aiter.__anext__()] makes the awaitable and does
    not await it. *)
Definition capture_header (r : AsyncReader) : AsyncReader :=
  if negb (_ignore_header r) && header_falsy (_header r) then
    {| _aiter := _aiter r; _ignore_header := _ignore_header r;
       _header := AnextPending |}
  else r.

(** [await r.header()] *)
Definition header (r : AsyncReader) : result Row * AsyncReader :=
  let r := capture_header r in
  match _header r with
  | HeaderNone | HeaderGiven _ => (Err TypeError, r)
  | AnextPending =>
      let (x, g) := anext (_aiter r) in
      (x, {| _aiter := g; _ignore_header := _ignore_header r;
             _header := AnextAwaited |})
  | AnextAwaited => (Err RuntimeError, r)
  end.

(** [await r.__anext__()] *)
Definition next (r : AsyncReader) : result Row * AsyncReader :=
  let r := capture_header r in
  let (x, g) := anext (_aiter r) in
  (x, {| _aiter := g; _ignore_header := _ignore_header r;
         _header := _header r |}).

(** [await r.close()] *)
Definition close (r : AsyncReader) : result unit * AsyncReader := (Ok tt, r).

(** [async with r: ...] leaves through [__aexit__], which closes. *)
Definition aexit (r : AsyncReader) : result unit * AsyncReader := close r.

(** [AsyncReader(aiter, ignore_header, header)] *)
Definition new_reader (aiter : agen Row) (ignore_header : bool)
    (header : option (list text)) : AsyncReader :=
  {| _aiter := aiter;
     _ignore_header := ignore_header;
     _header := match header with
                | None => HeaderNone
                | Some h => HeaderGiven h
                end |}.

(** [async for row in r]: [__anext__] until [StopAsyncIteration] or
    another exception; [fuel] bounds the number of rounds. *)
Fixpoint iterate_fuel (fuel : nat) (r : AsyncReader) : list Row * ending :=
  match fuel with
  | O => ([], Returned)
  | S fuel' =>
      match next r with
      | (Ok row, r') =>
          let (rows, e) := iterate_fuel fuel' r' in (row :: rows, e)
      | (Err StopAsyncIteration, _) => ([], Returned)
      | (Err e, _) => ([], Raised e)
      end
  end.

(** One round per yield and one for the end are enough. *)
Definition iterate (r : AsyncReader) : list Row * ending :=
  iterate_fuel (S (List.length (agen_yields (_aiter r)))) r.

(** [if encoding:] *)
Definition encoding_truthy (encoding : option string) : option string :=
  match encoding with
  | Some EmptyString | None => None
  | Some e => Some e
  end.

(** [reader]: the facade.  Calling an async generator function runs none
    of its body, so the call itself cannot fail. *)
Definition reader (E : Env) (fd : list bytes) (encoding : option string)
    (compression : option string) (buffer_size : Z) (dialect : string)
    (ignore_header : bool) (args : fmtparams) : result AsyncReader :=
  match encoding_truthy encoding with
  | Some e =>
      Ok (new_reader
            (reader_columnar E fd e compression buffer_size ignore_header)
            ignore_header None)
  | None =>
      Ok (new_reader
            (reader_compressed E fd compression buffer_size "excel" [])
            ignore_header None)
  end.

(** ** A model of the row tokenizer

    The reader of Python's [csv] module for its registered dialects
    ([excel], [excel-tab], [unix]), which differ for reading only in the
    delimiter: double-quote as quote character, doubled quotes, no escape
    character,
    not strict.  It follows the character automaton of [_csv.c]; [None] as
    a character is the end of a line.  Error messages are cut to their
    first clause. *)
Module Csv.

Inductive pstate : Type :=
| START_RECORD
| START_FIELD
| IN_FIELD
| IN_QUOTED_FIELD
| QUOTE_IN_QUOTED_FIELD
| EAT_CRNL.

Record parser : Type := {
  state : pstate;
  fields : list text;
  field : text
}.

Definition parse_reset : parser :=
  {| state := START_RECORD; fields := []; field := [] |}.

Definition quotechar : N := 34.
Definition field_limit : Z := 131072.

Definition is_newline (c : N) : bool := ((c =? 10) || (c =? 13))%N.

Definition set_state (p : parser) (s : pstate) : parser :=
  {| state := s; fields := fields p; field := field p |}.

Definition parse_save_field (p : parser) (s : pstate) : parser :=
  {| state := s; fields := fields p ++ [field p]; field := [] |}.

Definition parse_add_char (p : parser) (c : N) (s : pstate)
    : result parser :=
  if (field_limit <=? Z.of_nat (List.length (field p)))%Z then
    Err (CsvError "field larger than field limit (131072)")
  else Ok {| state := s; fields := fields p; field := field p ++ [c] |}.

Definition start_field (delimiter : N) (p : parser) (c : option N)
    : result parser :=
  match c with
  | None => Ok (parse_save_field p START_RECORD)
  | Some ch =>
      if is_newline ch then Ok (parse_save_field p EAT_CRNL)
      else if (ch =? quotechar)%N then Ok (set_state p IN_QUOTED_FIELD)
      else if (ch =? delimiter)%N then Ok (parse_save_field p START_FIELD)
      else parse_add_char p ch IN_FIELD
  end.

Definition parse_process_char (delimiter : N) (p : parser) (c : option N)
    : result parser :=
  match state p with
  | START_RECORD =>
      match c with
      | None => Ok p
      | Some ch =>
          if is_newline ch then Ok (set_state p EAT_CRNL)
          else start_field delimiter p c
      end
  | START_FIELD => start_field delimiter p c
  | IN_FIELD =>
      match c with
      | None => Ok (parse_save_field p START_RECORD)
      | Some ch =>
          if is_newline ch then Ok (parse_save_field p EAT_CRNL)
          else if (ch =? delimiter)%N then
            Ok (parse_save_field p START_FIELD)
          else parse_add_char p ch IN_FIELD
      end
  | IN_QUOTED_FIELD =>
      match c with
      | None => Ok p
      | Some ch =>
          if (ch =? quotechar)%N then Ok (set_state p QUOTE_IN_QUOTED_FIELD)
          else parse_add_char p ch IN_QUOTED_FIELD
      end
  | QUOTE_IN_QUOTED_FIELD =>
      match c with
      | None => Ok (parse_save_field p START_RECORD)
      | Some ch =>
          if (ch =? quotechar)%N then parse_add_char p ch IN_QUOTED_FIELD
          else if (ch =? delimiter)%N then
            Ok (parse_save_field p START_FIELD)
          else if is_newline ch then Ok (parse_save_field p EAT_CRNL)
          else parse_add_char p ch IN_FIELD
      end
  | EAT_CRNL =>
      match c with
      | None => Ok (set_state p START_RECORD)
      | Some ch =>
          if is_newline ch then Ok p
          else Err (CsvError "new-line character seen in unquoted field")
      end
  end.

(** The characters of one line, then the end of line. *)
Fixpoint parse_line (delimiter : N) (p : parser) (line : text)
    : result parser :=
  match line with
  | [] => parse_process_char delimiter p None
  | c :: line' =>
      match parse_process_char delimiter p (Some c) with
      | Err e => Err e
      | Ok p' => parse_line delimiter p' line'
      end
  end.

Definition at_start_record (p : parser) : bool :=
  match state p with START_RECORD => true | _ => false end.

Definition in_quoted_field (p : parser) : bool :=
  match state p with IN_QUOTED_FIELD => true | _ => false end.

(** Every record of the input: a record is complete when a line leaves
    the automaton at [START_RECORD]; input ending inside a quoted field
    closes the record. *)
Fixpoint records (delimiter : N) (p : parser) (lines : list text)
    : list Row * option exn :=
  match lines with
  | [] =>
      if truthy (field p) || in_quoted_field p then
        ([fields p ++ [field p]], None)
      else ([], None)
  | line :: lines' =>
      match parse_line delimiter p line with
      | Err e => ([], Some e)
      | Ok p' =>
          if at_start_record p' then
            let (rows, e) := records delimiter parse_reset lines' in
            (fields p' :: rows, e)
          else records delimiter p' lines'
      end
  end.

Definition delimiter_of (dialect : string) : option N :=
  if (dialect =? "excel")%string then Some 44%N
  else if (dialect =? "excel-tab")%string then Some 9%N
  else if (dialect =? "unix")%string then Some 44%N
  else None.

(** [csv.reader(lines, dialect)].  Format overrides are outside this
    model and are reported as errors. *)
Definition reader (lines : list text) (dialect : string) (args : fmtparams)
    : list Row * option exn :=
  match delimiter_of dialect, args with
  | Some d, [] => records d parse_reset lines
  | None, _ => ([], Some (CsvError "unknown dialect"))
  | Some _, _ :: _ => ([], Some TypeError)
  end.

End Csv.

(** ** A concrete environment *)

(** The codec that stores its payload unchanged. *)
Definition stored_codec : Codec :=
  {| dstate := unit;
     dinit := tt;
     decompress := fun st buf => Ok (buf, st);
     flush := fun _ => Ok [] |}.

(** A table decoder that rejects every buffer. *)
Definition no_table (_ : bytes) : result Table := Err TableDecodeError.

Definition plain_env : Env :=
  {| zlib_decompressobj := stored_codec;
     bz2_decompressor := stored_codec;
     zstd_decompressobj := stored_codec;
     csv_reader := Csv.reader;
     pd_read_parquet := no_table;
     orc_read_table := no_table |}.

(** An environment whose tokenizer makes one row of one field out of
    every line, and whose table decoders know one table. *)
Definition sample_table : Table :=
  {| columns := [[110%N]; [118%N]];
     itertuples := [[CellBytes [x61]; CellValue [49%N]];
                    [CellBytes [x62]; CellValue [50%N]]] |}.

Definition whole_line_env : Env :=
  {| zlib_decompressobj := stored_codec;
     bz2_decompressor := stored_codec;
     zstd_decompressobj := stored_codec;
     csv_reader := fun buffer _ _ => (map (fun s => [s]) buffer, None);
     pd_read_parquet := fun _ => Ok sample_table;
     orc_read_table := fun _ => Ok sample_table |}.

(** ASCII literals as [str] and as [bytes] ending in a line feed. *)
Definition str (s : string) : text := map Byte.to_N (list_byte_of_string s).
Definition line (s : string) : bytes := bytes_of_string s ++ [LF].

(** The scenario of the specification: three lines, delivered by the
    source one line per chunk, or all in one chunk. *)
Definition sample_lines : list bytes :=
  [line "a,b"; line "1,2"; line "3,4"].

Definition sample_chunk : list bytes :=
  [line "a,b" ++ line "1,2" ++ line "3,4"].

Definition sample_rows : list Row :=
  [[str "a"; str "b"]; [str "1"; str "2"]; [str "3"; str "4"]].

Definition sample_reader (fd : list bytes) (ignore_header : bool)
    : AsyncReader :=
  new_reader (reader_compressed plain_env fd None 16384 "excel" [])
    ignore_header None.

(** ** Notions used in the statements *)

(** A call that fails with an exception of the class [name]. *)
Definition fails_with (A : Type) (name : string) (x : result A) : Prop :=
  exists e, x = Err e /\ exn_name e = name.

(** The records handed to the batch assembler for the chunks [fd]. *)
Definition records_of (E : Env) (fd : list bytes)
    (compression : option string) : list bytes :=
  match select_lines E fd compression with
  | Ok lines => agen_yields lines
  | Err _ => []
  end.


(** [cur] put in front of the first line of [L]. *)
Definition prepend (cur : bytes) (L : list bytes) : list bytes :=
  match L with
  | [] => match cur with [] => [] | _ :: _ => [cur] end
  | l :: L' => (cur ++ l) :: L'
  end.

(** A generator without its source pulls: what a consumer can see. *)
Fixpoint unpull (A : Type) (g : agen A) : agen A :=
  match g with
  | Stop => Stop
  | Raise e => Raise e
  | Pull k => unpull k
  | Yield a k => Yield a (unpull k)
  end.

Definition finish (A : Type) (e : ending) : agen A :=
  match e with
  | Returned => Stop
  | Raised x => Raise x
  end.
Arguments finish {A} e.

(** Everything the decompressor emits over the chunks [fd], and the
    state it is left in. *)
Fixpoint feed (c : Codec) (st : dstate c) (fd : list bytes)
    : result (bytes * dstate c) :=
  match fd with
  | [] => Ok ([], st)
  | buf :: fd' =>
      match decompress c st buf with
      | Err e => Err e
      | Ok (data, st') =>
          match feed c st' fd' with
          | Err e => Err e
          | Ok (rest, st'') => Ok (data ++ rest, st'')
          end
      end
  end.

(** The decompressed payload, without and with the final flush. *)
Definition payload (c : Codec) (fd : list bytes) : result bytes :=
  match feed c (dinit c) fd with
  | Err e => Err e
  | Ok (p, _) => Ok p
  end.

Definition payload_flushed (c : Codec) (fd : list bytes) : result bytes :=
  match feed c (dinit c) fd with
  | Err e => Err e
  | Ok (p, st) =>
      match flush c st with
      | Err e => Err e
      | Ok tail => Ok (p ++ tail)
      end
  end.



Fixpoint decode_lines (b : list bytes) : option (list text) :=
  match b with
  | [] => Some []
  | r :: b' =>
      match decode_utf8 r with
      | None => None
      | Some s => option_map (cons s) (decode_lines b')
      end
  end.




(** The rows of a table as text, when every [bytes] cell decodes. *)
Fixpoint table_texts (rows : list (list cell)) : option (list Row) :=
  match rows with
  | [] => Some []
  | row :: rows' =>
      match row_texts row, table_texts rows' with
      | Some r, Some rs => Some (r :: rs)
      | _, _ => None
      end
  end.

(** The row the tokenizer makes of the line [t] alone, when [t] is a
    whole record: tokenized from the start of a record, it is not rejected
    and does not end inside a quoted field. *)
Definition single_record (delimiter : N) (t : text) : option Row :=
  match Csv.parse_line delimiter Csv.parse_reset t with
  | Ok p => if Csv.at_start_record p then Some (Csv.fields p) else None
  | Err _ => None
  end.

Fixpoint single_records (delimiter : N) (ts : list text)
    : option (list Row) :=
  match ts with
  | [] => Some []
  | t :: ts' =>
      match single_record delimiter t, single_records delimiter ts' with
      | Some row, Some rows => Some (row :: rows)
      | _, _ => None
      end
  end.

(** A line break. *)
Definition is_break (c : byte) : bool := is_lf c || is_cr c.

(** A line with its terminator: bytes that are no line break, then a
    line feed, a carriage return, or a carriage return and a line feed. *)
Fixpoint complete_line (l : bytes) : bool :=
  match l with
  | [] => false
  | c :: l' =>
      if is_lf c then negb (truthy l')
      else if is_cr c then
        match l' with
        | [] => true
        | c' :: l'' => is_lf c' && negb (truthy l'')
        end
      else complete_line l'
  end.

(** A line without terminator: at least one byte, and no line break. *)
Definition open_line (l : bytes) : bool :=
  truthy l && forallb (fun c => negb (is_break c)) l.

(** Lines as [splitlines] gives them: all complete but possibly the last. *)
Definition lines_shape (L : list bytes) : Prop :=
  Forall (fun l => complete_line l = true) (but_last L) /\
  Forall (fun l => complete_line l = true \/ open_line l = true) L.

(** [xs] is [ys] with some elements left out. *)
Inductive subseq (A : Type) : list A -> list A -> Prop :=
| subseq_nil : subseq [] []
| subseq_keep (x : A) (xs ys : list A) :
    subseq xs ys -> subseq (x :: xs) (x :: ys)
| subseq_skip (y : A) (xs ys : list A) :
    subseq xs ys -> subseq xs (y :: ys).

(** * Properties *)

(** ** Line splitting *)

Section Splitlines.

Lemma prepend_nil (L : list bytes) : prepend [] L = L.
Proof. destruct L; reflexivity. Qed.

Lemma prepend_prepend (u v : bytes) (L : list bytes) :
  prepend u (prepend v L) = prepend (u ++ v) L.
Proof.
  destruct L as [|l L]; simpl.
  - destruct v as [|b v]; simpl.
    + now rewrite app_nil_r.
    + destruct u; reflexivity.
  - now rewrite app_assoc.
Qed.

Lemma splitlines_from_prepend (s cur : bytes) :
  splitlines_from cur s = prepend cur (splitlines s).
Proof.
  unfold splitlines. revert cur.
  induction s as [|c s IH]; intros cur; simpl.
  - reflexivity.
  - destruct (is_lf c); [reflexivity|].
    destruct (is_cr c).
    + destruct s as [|c' s]; [reflexivity|].
      destruct (is_lf c'); reflexivity.
    + rewrite (IH (cur ++ [c])), (IH [c]).
      now rewrite prepend_prepend.
Qed.

Lemma splitlines_nil_inv (s : bytes) : splitlines s = [] -> s = [].
Proof.
  destruct s as [|c s]; [reflexivity|]. unfold splitlines. simpl.
  destruct (is_lf c); [discriminate|].
  destruct (is_cr c).
  - destruct s as [|c' s]; [discriminate|].
    destruct (is_lf c'); discriminate.
  - rewrite splitlines_from_prepend.
    destruct (splitlines s); discriminate.
Qed.

Lemma truthy_splitlines (s : bytes) :
  truthy (splitlines s) = truthy s.
Proof.
  destruct s as [|c s]; [reflexivity|].
  destruct (splitlines (c :: s)) eqn:H; [|reflexivity].
  apply splitlines_nil_inv in H. discriminate.
Qed.

Lemma concat_prepend (cur : bytes) (L : list bytes) :
  List.concat (prepend cur L) = cur ++ List.concat L.
Proof.
  destruct L as [|l L]; simpl.
  - destruct cur; simpl; now rewrite ?app_nil_r.
  - now rewrite app_assoc.
Qed.

(** The lines of [s], put end to end, are [s]. *)
Lemma concat_splitlines (s : bytes) : List.concat (splitlines s) = s.
Proof.
  remember (List.length s) as n eqn:Hn.
  revert s Hn. induction n as [n IH] using lt_wf_ind. intros s Hn.
  destruct s as [|c s]; [reflexivity|].
  unfold splitlines. simpl.
  destruct (is_lf c).
  - simpl. f_equal. apply (IH (List.length s)); simpl in Hn; [lia|easy].
  - destruct (is_cr c).
    + destruct s as [|c' s]; [reflexivity|].
      destruct (is_lf c'); simpl; do 2 f_equal.
      * apply (IH (List.length s)); simpl in Hn; [lia|easy].
      * change (List.concat (splitlines (c' :: s)) = c' :: s).
        apply (IH (List.length (c' :: s))); simpl in *; [lia|easy].
    + rewrite splitlines_from_prepend, concat_prepend. simpl. f_equal.
      apply (IH (List.length s)); simpl in Hn; [lia|easy].
Qed.

(** No line is empty. *)
Lemma splitlines_nonempty (s : bytes) :
  Forall (fun l => l <> []) (splitlines s).
Proof.
  remember (List.length s) as n eqn:Hn.
  revert s Hn. induction n as [n IH] using lt_wf_ind. intros s Hn.
  destruct s as [|c s]; [constructor|].
  unfold splitlines. simpl.
  destruct (is_lf c).
  - constructor; [discriminate|].
    apply (IH (List.length s)); simpl in Hn; [lia|easy].
  - destruct (is_cr c).
    + destruct s as [|c' s]; [repeat constructor; discriminate|].
      destruct (is_lf c'); (constructor; [discriminate|]).
      * apply (IH (List.length s)); simpl in Hn; [lia|easy].
      * apply (IH (List.length (c' :: s))); simpl in *; [lia|easy].
    + rewrite splitlines_from_prepend.
      assert (H : Forall (fun l => l <> []) (splitlines s))
        by (apply (IH (List.length s)); simpl in Hn; [lia|easy]).
      destruct (splitlines s); simpl.
      * repeat constructor; discriminate.
      * inversion H; subst. constructor; [discriminate|assumption].
Qed.

Lemma but_last_cons (A : Type) (x : A) (L : list A) :
  L <> [] -> but_last (x :: L) = x :: but_last L.
Proof. destruct L; [congruence|reflexivity]. Qed.

Lemma last_line_cons (x : bytes) (L : list bytes) :
  L <> [] -> last_line (x :: L) = last_line L.
Proof. destruct L; [congruence|reflexivity]. Qed.

(** The scan, one line at a time. *)
Lemma splitlines_lf (c : byte) (s : bytes) :
  is_lf c = true -> splitlines (c :: s) = [c] :: splitlines s.
Proof. intros H. unfold splitlines. simpl. now rewrite H. Qed.

Lemma splitlines_cr_end (c : byte) :
  is_lf c = false -> is_cr c = true -> splitlines [c] = [[c]].
Proof. intros H1 H2. unfold splitlines. simpl. now rewrite H1, H2. Qed.

Lemma splitlines_crlf (c c' : byte) (s : bytes) :
  is_lf c = false -> is_cr c = true -> is_lf c' = true ->
  splitlines (c :: c' :: s) = [c; c'] :: splitlines s.
Proof.
  intros H1 H2 H3. unfold splitlines. simpl. now rewrite H1, H2, H3.
Qed.

Lemma splitlines_cr (c c' : byte) (s : bytes) :
  is_lf c = false -> is_cr c = true -> is_lf c' = false ->
  splitlines (c :: c' :: s) = [c] :: splitlines (c' :: s).
Proof.
  intros H1 H2 H3. unfold splitlines. simpl. now rewrite H1, H2, H3.
Qed.

Lemma splitlines_other (c : byte) (s : bytes) :
  is_lf c = false -> is_cr c = false ->
  splitlines (c :: s) = prepend [c] (splitlines s).
Proof.
  intros H1 H2. unfold splitlines at 1. simpl. rewrite H1, H2.
  apply splitlines_from_prepend.
Qed.

(** What one more block does to the lines: the lines before the last
    are settled, the last one is split again with the block appended. *)
Lemma splitlines_app (a b : bytes) :
  splitlines (a ++ b) =
  but_last (splitlines a) ++ splitlines (last_line (splitlines a) ++ b).
Proof.
  remember (List.length a) as n eqn:Hn.
  revert a Hn. induction n as [n IH] using lt_wf_ind. intros a Hn.
  assert (after : forall (x a' : bytes),
             (List.length a' < n)%nat ->
             (a' = [] -> splitlines (x ++ b) = x :: splitlines b) ->
             x :: splitlines (a' ++ b) =
             but_last (x :: splitlines a') ++
             splitlines (last_line (x :: splitlines a') ++ b)).
  { intros x a' Hlt Hend.
    destruct (splitlines a') eqn:HL.
    - apply splitlines_nil_inv in HL. subst a'.
      unfold last_line. simpl. now rewrite Hend.
    - rewrite but_last_cons, last_line_cons by discriminate.
      rewrite <- HL. simpl. f_equal. now apply (IH (List.length a')). }
  destruct a as [|c a]; [reflexivity|]. simpl in Hn.
  rewrite <- app_comm_cons.
  destruct (is_lf c) eqn:Hlf.
  - rewrite !splitlines_lf by assumption.
    apply after; [lia|]. intros _. now apply splitlines_lf.
  - destruct (is_cr c) eqn:Hcr.
    + destruct a as [|c' a].
      * now rewrite splitlines_cr_end.
      * rewrite <- app_comm_cons. simpl in Hn.
        destruct (is_lf c') eqn:Hlf'.
        -- rewrite !splitlines_crlf by assumption.
           apply after; [lia|]. intros _. now apply splitlines_crlf.
        -- rewrite !splitlines_cr by assumption.
           rewrite app_comm_cons.
           apply after; [simpl; lia|]. discriminate.
    + rewrite !splitlines_other by assumption.
      rewrite (IH (List.length a)) by (lia || reflexivity).
      destruct (splitlines a) as [|l L] eqn:HL.
      * apply splitlines_nil_inv in HL. subst a.
        unfold last_line. simpl.
        now rewrite splitlines_other.
      * destruct L as [|l' L].
        -- unfold last_line. simpl.
           now rewrite splitlines_other.
        -- unfold last_line, but_last. reflexivity.
Qed.

End Splitlines.

(** ** Generators *)

Section Generators.

Variable A : Type.

Lemma agen_yields_yield_all (xs : list A) (k : agen A) :
  agen_yields (yield_all xs k) = xs ++ agen_yields k.
Proof. induction xs as [|x xs IH]; simpl; [reflexivity|now rewrite IH]. Qed.

Lemma agen_ending_yield_all (xs : list A) (k : agen A) :
  agen_ending (yield_all xs k) = agen_ending k.
Proof. induction xs as [|x xs IH]; simpl; [reflexivity|exact IH]. Qed.

Lemma unpull_yield_all (xs : list A) (k : agen A) :
  unpull (yield_all xs k) = yield_all xs (unpull k).
Proof. induction xs as [|x xs IH]; simpl; [reflexivity|now rewrite IH]. Qed.

Lemma yield_all_app (xs ys : list A) (k : agen A) :
  yield_all (xs ++ ys) k = yield_all xs (yield_all ys k).
Proof. induction xs as [|x xs IH]; simpl; [reflexivity|now rewrite IH]. Qed.

(** What a consumer sees is the yields and the ending, nothing more. *)
Lemma unpull_observed (g : agen A) :
  unpull g = yield_all (agen_yields g) (finish (agen_ending g)).
Proof. induction g; simpl; congruence. Qed.

Lemma agen_yields_unpull (g : agen A) :
  agen_yields (unpull g) = agen_yields g.
Proof. induction g; simpl; congruence. Qed.

Lemma agen_ending_unpull (g : agen A) :
  agen_ending (unpull g) = agen_ending g.
Proof. induction g; simpl; congruence. Qed.

Lemma anext_unpull (g : agen A) :
  fst (anext (unpull g)) = fst (anext g) /\
  snd (anext (unpull g)) = unpull (snd (anext g)).
Proof. induction g; simpl; auto. Qed.

(** Pulling takes the first yield and leaves the others. *)
Lemma anext_yields (g : agen A) (x : A) (xs : list A) :
  agen_yields g = x :: xs ->
  fst (anext g) = Ok x /\ agen_yields (snd (anext g)) = xs.
Proof.
  induction g as [| |k IH|a k IH]; simpl; intros H; try discriminate.
  - now apply IH.
  - inversion H; subst. split; reflexivity.
Qed.

End Generators.

(** ** Iterating a reader *)

Lemma anext_cases (A : Type) (g : agen A) :
  (agen_yields g = [] /\
   ((agen_ending g = Returned /\ fst (anext g) = Err StopAsyncIteration) \/
    (exists e, agen_ending g = Raised e /\ fst (anext g) = Err e))) \/
  (exists x,
      fst (anext g) = Ok x /\
      agen_yields g = x :: agen_yields (snd (anext g)) /\
      agen_ending (snd (anext g)) = agen_ending g).
Proof.
  induction g as [|e|k IH|a k IH]; simpl.
  - left. auto.
  - left. split; [reflexivity|]. right. exists e. auto.
  - exact IH.
  - right. exists a. auto.
Qed.

Lemma aiter_capture_header (r : AsyncReader) :
  _aiter (capture_header r) = _aiter r.
Proof. unfold capture_header. now destruct (negb _ && _). Qed.

(** [__anext__] on a reader is [__anext__] on its row generator. *)
Lemma next_is_anext (r : AsyncReader) :
  fst (next r) = fst (anext (_aiter r)) /\
  _aiter (snd (next r)) = snd (anext (_aiter r)).
Proof.
  unfold next. rewrite aiter_capture_header.
  now destruct (anext (_aiter r)).
Qed.

(** With enough rounds, iterating a reader gives every row of its row
    generator and ends as the generator does. *)
Lemma iterate_fuel_enough (n : nat) :
  forall r : AsyncReader,
    (List.length (agen_yields (_aiter r)) < n)%nat ->
    agen_ending (_aiter r) <> Raised StopAsyncIteration ->
    iterate_fuel n r = (agen_yields (_aiter r), agen_ending (_aiter r)).
Proof.
  induction n as [|n IH]; intros r Hlen Hend; [lia|].
  simpl. destruct (next_is_anext r) as [H1 H2].
  destruct (next r) as [x r']. simpl in H1, H2. subst x.
  destruct (anext_cases (_aiter r)) as [[Hy [[He Hx]|[e [He Hx]]]]|[x Hx]].
  - rewrite Hx, Hy, He. reflexivity.
  - rewrite Hx, Hy, He.
    destruct e; try reflexivity. now rewrite He in Hend.
  - destruct Hx as [Hx [Hy He]]. rewrite Hx.
    rewrite <- H2 in Hy, He.
    rewrite IH; [now rewrite Hy, He| |now rewrite He].
    rewrite Hy in Hlen. simpl in Hlen. lia.
Qed.

Lemma iterate_all (r : AsyncReader) :
  agen_ending (_aiter r) <> Raised StopAsyncIteration ->
  iterate r = (agen_yields (_aiter r), agen_ending (_aiter r)).
Proof. intros H. apply iterate_fuel_enough; [lia|exact H]. Qed.

(** ** Decompression and line reassembly *)

Section Reassembly.

Variable c : Codec.

Lemma last_line_or_nil (L : list bytes) :
  (if truthy L then last_line L else []) = last_line L.
Proof. destruct L; reflexivity. Qed.

Lemma open_gzip_loop_lines (fd : list bytes) :
  forall (st st' : dstate c) (out_buf rest tail : bytes),
    feed c st fd = Ok (rest, st') ->
    flush c st' = Ok tail ->
    agen_yields (open_gzip_loop c st out_buf fd) =
      splitlines (out_buf ++ rest ++ tail) /\
    agen_ending (open_gzip_loop c st out_buf fd) = Returned.
Proof.
  induction fd as [|buf fd IH]; intros st st' out_buf rest tail Hfeed Hfl.
  - simpl in *. inversion Hfeed; subst. rewrite Hfl. simpl.
    now rewrite agen_yields_yield_all, agen_ending_yield_all, app_nil_r.
  - simpl in *.
    destruct (decompress c st buf) as [[data st1]|e]; [|discriminate].
    destruct (feed c st1 fd) as [[rest1 st2]|e] eqn:Hrest; [|discriminate].
    inversion Hfeed; subst.
    rewrite agen_yields_yield_all, agen_ending_yield_all.
    rewrite last_line_or_nil.
    destruct (IH st1 st' (last_line (splitlines (out_buf ++ data)))
                rest1 tail Hrest Hfl) as [Hy He].
    rewrite Hy, He. split; [|reflexivity].
    rewrite <- splitlines_app. f_equal.
    now rewrite <- !app_assoc.
Qed.

(** [open_gzip] yields the lines of the whole payload, however the
    decompressor's output was cut into blocks. *)
Lemma open_gzip_lines (fd : list bytes) (p : bytes) :
  payload_flushed c fd = Ok p ->
  agen_yields (open_gzip c fd) = splitlines p /\
  agen_ending (open_gzip c fd) = Returned.
Proof.
  unfold payload_flushed, open_gzip. intros H.
  destruct (feed c (dinit c) fd) as [[rest st]|e] eqn:Hfeed; [|discriminate].
  destruct (flush c st) as [tail|e] eqn:Hfl; [|discriminate].
  inversion H; subst.
  exact (open_gzip_loop_lines fd (dinit c) [] Hfeed Hfl).
Qed.

(** The last line of a split is a line of its own. *)
Lemma splitlines_last_line (s : bytes) :
  splitlines (last_line (splitlines s)) =
  if truthy (splitlines s) then [last_line (splitlines s)] else [].
Proof.
  destruct (splitlines s) as [|l L] eqn:HL; [reflexivity|].
  assert (Hne : l :: L <> []) by discriminate.
  pose proof (splitlines_app s []) as H.
  rewrite app_nil_r in H. rewrite HL in H.
  rewrite (app_removelast_last [] Hne) in H at 1.
  rewrite app_nil_r in H.
  apply app_inv_head in H. simpl truthy. cbv iota.
  now rewrite <- H.
Qed.

Lemma open_zstd_loop_lines (fd : list bytes) :
  forall (st st' : dstate c) (seen rest : bytes),
    feed c st fd = Ok (rest, st') ->
    agen_yields
      (open_zstd_loop c st (last_line (splitlines seen))
         (Some (splitlines seen)) fd) =
      splitlines (last_line (splitlines seen) ++ rest) /\
    agen_ending
      (open_zstd_loop c st (last_line (splitlines seen))
         (Some (splitlines seen)) fd) = Returned.
Proof.
  induction fd as [|buf fd IH]; intros st st' seen rest Hfeed.
  - simpl in *. inversion Hfeed; subst. rewrite app_nil_r.
    rewrite splitlines_last_line.
    destruct (truthy (splitlines seen)); split; reflexivity.
  - simpl in *.
    destruct (decompress c st buf) as [[data st1]|e]; [|discriminate].
    destruct (feed c st1 fd) as [[rest1 st2]|e] eqn:Hrest; [|discriminate].
    inversion Hfeed; subst.
    rewrite agen_yields_yield_all, agen_ending_yield_all.
    rewrite last_line_or_nil.
    destruct (IH st1 st' (last_line (splitlines seen) ++ data) rest1 Hrest)
      as [Hy He].
    rewrite Hy, He. split; [|reflexivity].
    rewrite <- splitlines_app. f_equal.
    now rewrite <- !app_assoc.
Qed.

(** [open_zstd] over at least one chunk yields the lines of the whole
    payload. *)
Lemma open_zstd_lines (fd : list bytes) (p : bytes) :
  fd <> [] ->
  payload c fd = Ok p ->
  agen_yields (open_zstd c fd) = splitlines p /\
  agen_ending (open_zstd c fd) = Returned.
Proof.
  unfold payload, open_zstd. intros Hne H.
  destruct fd as [|buf fd]; [congruence|]. simpl in *.
  destruct (decompress c (dinit c) buf) as [[data st1]|e]; [|discriminate].
  destruct (feed c st1 fd) as [[rest1 st2]|e] eqn:Hrest; [|discriminate].
  inversion H; subst.
  rewrite agen_yields_yield_all, agen_ending_yield_all.
  rewrite last_line_or_nil.
  destruct (open_zstd_loop_lines fd st1 data Hrest) as [Hy He].
  rewrite Hy, He. split; [|reflexivity].
  now rewrite <- splitlines_app.
Qed.

Lemma agen_yields_aiter_source (fd : list bytes) :
  agen_yields (aiter_source fd) = fd /\
  agen_ending (aiter_source fd) = Returned.
Proof.
  induction fd as [|buf fd [IH1 IH2]]; simpl; [auto|].
  now rewrite IH1, IH2.
Qed.

End Reassembly.

(** ** Batching *)

Section Batching.

Variable E : Env.
Variable buffer_size : Z.
Variable dialect : string.
Variable args : fmtparams.

Lemma unpull_yield_rows (rows : list Row * option exn) (k : agen Row) :
  unpull (yield_rows rows k) = yield_rows rows (unpull k).
Proof.
  unfold yield_rows. rewrite unpull_yield_all.
  destruct (snd rows); reflexivity.
Qed.

(** The loop does not see how its lines were obtained from the source. *)
Lemma unpull_batch_loop (g : agen bytes) :
  forall (buffer : list text) (buffer_len : Z),
    unpull (batch_loop E buffer_size dialect args buffer buffer_len g) =
    unpull (batch_loop E buffer_size dialect args buffer buffer_len
              (unpull g)).
Proof.
  induction g as [| |k IH|line k IH]; intros buffer buffer_len; simpl;
    try reflexivity.
  - apply IH.
  - destruct (decode_utf8 line) as [s|]; [|reflexivity].
    destruct (buffer_size <=? buffer_len + len line)%Z.
    + rewrite !unpull_yield_rows. now rewrite IH.
    + apply IH.
Qed.











End Batching.

(** * The claims *)

(** ** The zstd path over an empty source *)

(** C10. [open_zstd] over a source with no chunk does not yield zero
    records: its end-of-stream branch reads the local [lines], bound only
    inside the loop, and fails with an unbound-name error before anything
    is yielded.  Over at least one chunk (the decompressor not failing)
    it returns normally with the lines of the payload. *)
Theorem open_zstd_empty_source (c : Codec) :
  open_zstd c [] = Raise (UnboundLocalError "lines") /\
  agen_yields (open_zstd c []) = [] /\
  fst (anext (open_zstd c [])) = Err (UnboundLocalError "lines") /\
  (forall (fd : list bytes) (p : bytes),
      fd <> [] -> payload c fd = Ok p ->
      agen_yields (open_zstd c fd) = splitlines p /\
      agen_ending (open_zstd c fd) = Returned).
Proof.
  split; [reflexivity|]. split; [reflexivity|]. split; [reflexivity|].
  intros fd p Hne Hp. now apply open_zstd_lines.
Qed.

Lemma open_zstd_empty_source_witness :
  agen_yields (open_zstd stored_codec [bytes_of_string "ab"; line "c"]) =
    splitlines (bytes_of_string "ab" ++ line "c") /\
  agen_ending (open_zstd stored_codec [bytes_of_string "ab"; line "c"]) =
    Returned.
Proof.
  apply (proj2 (proj2 (proj2 (open_zstd_empty_source stored_codec)))).
  - discriminate.
  - reflexivity.
Defined.

(** ** The facade and the tokenizer configuration *)

(** C9. On the text path, whatever dialect and extra tokenizer arguments
    are given to [reader], the row generator is [reader_compressed] with
    the default dialect ['excel'] and no extra argument. *)
Theorem reader_drops_dialect (E : Env) (fd : list bytes)
    (encoding compression : option string) (buffer_size : Z)
    (dialect : string) (ignore_header : bool) (args : fmtparams) :
  encoding_truthy encoding = None ->
  reader E fd encoding compression buffer_size dialect ignore_header args =
    Ok (new_reader
          (reader_compressed E fd compression buffer_size "excel" [])
          ignore_header None) /\
  reader E fd encoding compression buffer_size dialect ignore_header args =
    reader E fd encoding compression buffer_size "excel" ignore_header [].
Proof.
  intros H. unfold reader. rewrite H. split; reflexivity.
Qed.

Lemma reader_drops_dialect_witness :
  reader plain_env [line "a,b"] None None 16384 "excel-tab" true
    [("delimiter", ";")%string] =
  reader plain_env [line "a,b"] None None 16384 "excel" true [].
Proof.
  apply (proj2 (reader_drops_dialect plain_env [line "a,b"] None None 16384
                  "excel-tab" true [("delimiter", ";")%string] eq_refl)).
Defined.

(** Had the dialect been forwarded, it would have shown in the rows. *)
Example dialect_matters :
  agen_yields
    (reader_compressed plain_env [line "a,b"] None 16384 "excel-tab" []) =
    [[str "a,b"]] /\
  agen_yields
    (reader_compressed plain_env [line "a,b"] None 16384 "excel" []) =
    [[str "a"; str "b"]].
Proof. split; vm_compute; reflexivity. Qed.

(** ** [header()] when the header is ignored *)

(** C8, as stated, fails: [header()] on a reader with
    [ignore_header=true] does not fail with [HeaderUnavailableError]. *)
Lemma header_ignored_not_unavailable :
  reader plain_env sample_lines None None 16384 "excel" true [] =
    Ok (sample_reader sample_lines true) /\
  ~ fails_with "HeaderUnavailableError"
      (fst (header (sample_reader sample_lines true))).
Proof.
  split; [reflexivity|].
  intros [e [H1 H2]]. simpl in H1. inversion H1; subst. discriminate.
Qed.

(** C8, amended. On a reader made with [ignore_header=true] and no header,
    [header()] awaits [None]: it fails with [TypeError], and leaves the
    reader and its row generator as they were. *)
Theorem header_ignored_type_error (aiter : agen Row) :
  header (new_reader aiter true None) =
    (Err TypeError, new_reader aiter true None) /\
  fails_with "TypeError" (fst (header (new_reader aiter true None))).
Proof.
  split; [reflexivity|]. exists TypeError. split; reflexivity.
Qed.

(** ** [close()] *)

(** C7, as stated, fails: after [close()], [next()] still returns the
    next row. *)
Lemma next_after_close_not_closed_error :
  reader plain_env sample_lines None None 16384 "excel" true [] =
    Ok (sample_reader sample_lines true) /\
  fst (next (snd (close (sample_reader sample_lines true)))) =
    Ok [str "a"; str "b"] /\
  ~ fails_with "ReaderClosedError"
      (fst (next (snd (close (sample_reader sample_lines true))))).
Proof.
  split; [reflexivity|]. split; [vm_compute; reflexivity|].
  intros [e [H1 H2]]. vm_compute in H1. discriminate.
Qed.

(** C7, amended. [close()] does nothing: called any number of times it
    succeeds and leaves the reader unchanged, so [next()] and [header()]
    after it behave as they would have without it. *)
Theorem close_is_noop (r : AsyncReader) (n : nat) :
  let r' := Nat.iter n (fun x => snd (close x)) r in
  r' = r /\
  close r' = (Ok tt, r) /\
  next r' = next r /\
  header r' = header r.
Proof.
  assert (H : Nat.iter n (fun x => snd (close x)) r = r).
  { induction n as [|n IH]; simpl; [reflexivity|exact IH]. }
  cbv zeta. rewrite H. repeat split.
Qed.

(** ** Unsupported configuration *)

(** C5, as stated, fails: with an unknown compression, constructing the
    reader succeeds. *)
Lemma unknown_compression_constructs :
  ~ (exists e,
        reader plain_env sample_lines None (Some "lz4"%string) 16384 "excel"
          true [] = Err e).
Proof. intros [e H]. discriminate. Qed.

(** C5, amended. Constructing the reader never fails.  With a compression
    other than [None], ['gzip'], ['bzip2'], ['zstd'] on the text path
    (encoding [None] or empty), and with a non-empty encoding other than
    ['parquet'] and ['orc'], the row generator is the one that raises
    [ValueError] at once: the first pull fails with it, and no chunk has
    been taken from the source. *)
Theorem unsupported_configuration_at_first_pull (E : Env) (fd : list bytes)
    (encoding compression : option string) (buffer_size : Z)
    (dialect : string) (ignore_header : bool) (args : fmtparams) :
  exists r,
    reader E fd encoding compression buffer_size dialect ignore_header args
      = Ok r /\
    (forall c,
        encoding_truthy encoding = None ->
        compression = Some c ->
        ~ In c ["gzip"; "bzip2"; "zstd"]%string ->
        _aiter r = Raise (ValueError ("Invalid compression " ++ c)) /\
        fst (next r) = Err (ValueError ("Invalid compression " ++ c)) /\
        anext_pulls (_aiter r) = 0%nat) /\
    (forall e,
        encoding_truthy encoding = Some e ->
        ~ In e ["parquet"; "orc"]%string ->
        _aiter r = Raise (ValueError ("Invalid encoding " ++ e)) /\
        fst (next r) = Err (ValueError ("Invalid encoding " ++ e)) /\
        anext_pulls (_aiter r) = 0%nat).
Proof.
  unfold reader.
  destruct (encoding_truthy encoding) as [e|] eqn:Henc;
    eexists; (split; [reflexivity|]); split.
  - intros c H. discriminate.
  - intros e' H Hin. inversion H; subst e'.
    assert (Haiter :
              reader_columnar E fd e compression buffer_size ignore_header =
              Raise (ValueError ("Invalid encoding " ++ e))).
    { unfold reader_columnar.
      destruct (String.eqb_spec e "parquet") as [->|_];
        [exfalso; apply Hin; simpl; auto|].
      destruct (String.eqb_spec e "orc") as [->|_];
        [exfalso; apply Hin; simpl; auto|].
      reflexivity. }
    unfold next, capture_header. simpl _aiter.
    destruct (negb _ && _); simpl; rewrite Haiter; repeat split.
  - intros c _ Hc Hin. subst compression.
    assert (Haiter :
              reader_compressed E fd (Some c) buffer_size "excel" [] =
              Raise (ValueError ("Invalid compression " ++ c))).
    { unfold reader_compressed, select_lines.
      destruct (String.eqb_spec c "gzip") as [->|_];
        [exfalso; apply Hin; simpl; auto|].
      destruct (String.eqb_spec c "bzip2") as [->|_];
        [exfalso; apply Hin; simpl; auto|].
      destruct (String.eqb_spec c "zstd") as [->|_];
        [exfalso; apply Hin; simpl; auto|].
      reflexivity. }
    unfold next, capture_header. simpl _aiter.
    destruct (negb _ && _); simpl; rewrite Haiter; repeat split.
  - intros e H. discriminate.
Qed.

Lemma unsupported_configuration_at_first_pull_witness :
  exists r,
    reader plain_env sample_lines None (Some "lz4"%string) 16384 "excel"
      true [] = Ok r /\
    fst (next r) = Err (ValueError "Invalid compression lz4") /\
    anext_pulls (_aiter r) = 0%nat.
Proof.
  destruct (unsupported_configuration_at_first_pull plain_env sample_lines
              None (Some "lz4"%string) 16384 "excel" true [])
    as [r [Hr [Hc _]]].
  exists r. split; [exact Hr|].
  apply (Hc "lz4"%string eq_refl eq_refl).
  simpl. intros [H|[H|[H|[]]]]; discriminate.
Defined.

(** An empty encoding is outside the supported set and yet accepted: it
    selects the text path; and the columnar path never looks at the
    compression. *)
Example empty_encoding_is_text_path :
  reader plain_env sample_lines (Some ""%string) None 16384 "excel" true [] =
  reader plain_env sample_lines None None 16384 "excel" true [].
Proof. reflexivity. Qed.

Example columnar_ignores_compression (E : Env) (fd : list bytes)
    (c : option string) :
  reader E fd (Some "parquet"%string) c 16384 "excel" true [] =
  reader E fd (Some "parquet"%string) None 16384 "excel" true [].
Proof. reflexivity. Qed.

(** ** Header and first row *)

(** In the order [header()], then [next()]: when the row generator of a
    reader yields at least two rows and [ignore_header=false], [header()]
    returns the first and the [next()] that follows returns the second;
    with [ignore_header=true], the first [next()] returns the first. *)
Theorem header_then_next (E : Env) (fd : list bytes)
    (encoding compression : option string) (buffer_size : Z)
    (dialect : string) (ignore_header : bool) (args : fmtparams)
    (r : AsyncReader) (x1 x2 : Row) (xs : list Row) :
  reader E fd encoding compression buffer_size dialect ignore_header args
    = Ok r ->
  agen_yields (_aiter r) = x1 :: x2 :: xs ->
  (ignore_header = false ->
     fst (header r) = Ok x1 /\ fst (next (snd (header r))) = Ok x2) /\
  (ignore_header = true -> fst (next r) = Ok x1).
Proof.
  intros Hr Hy.
  assert (Hshape : exists g, r = new_reader g ignore_header None).
  { unfold reader in Hr.
    destruct (encoding_truthy encoding); inversion Hr; eexists; reflexivity. }
  destruct Hshape as [g ->]. simpl in Hy.
  destruct (anext_yields g Hy) as [H1 H2].
  split; intros ->.
  - unfold header, capture_header. simpl.
    destruct (anext g) as [y g'] eqn:Hg. simpl in H1, H2. subst y.
    split; [reflexivity|].
    unfold next, capture_header. simpl.
    destruct (anext_yields g' H2) as [H3 _].
    destruct (anext g') as [y' g'']. simpl in *. exact H3.
  - unfold next, capture_header. simpl.
    destruct (anext g) as [y g']. simpl in *. exact H1.
Qed.

Lemma header_then_next_witness :
  fst (header (sample_reader sample_lines false)) = Ok [str "a"; str "b"] /\
  fst (next (snd (header (sample_reader sample_lines false)))) =
    Ok [str "1"; str "2"].
Proof.
  refine (proj1 (@header_then_next plain_env sample_lines None None 16384
                   "excel" false [] (sample_reader sample_lines false)
                   [str "a"; str "b"] [str "1"; str "2"]
                   [[str "3"; str "4"]] eq_refl _) eq_refl).
  vm_compute. reflexivity.
Defined.

(** With [ignore_header=false], a [next()] that is not preceded by
    [header()] makes the awaitable for the header and leaves it unawaited:
    it returns the first row as well. *)
Remark next_without_header (g : agen Row) (x1 : Row) (xs : list Row) :
  agen_yields g = x1 :: xs ->
  fst (next (new_reader g false None)) = Ok x1.
Proof.
  intros Hy. destruct (anext_yields g Hy) as [H1 _].
  unfold next, capture_header. simpl.
  destruct (anext g) as [y g']. exact H1.
Qed.

(** C4. The code breaks the claim when [next()] is the first call: on a
    reader made with [ignore_header=false], whatever the source, the first
    value returned by [next()] is the first row, the one [header()] would
    have returned, and not the second.  [__anext__] stores the awaitable
    of the header row and does not await it, so the row generator has not
    moved when the row to return is taken from it. *)
Theorem first_next_returns_header_row (E : Env) (fd : list bytes)
    (encoding compression : option string) (buffer_size : Z)
    (dialect : string) (args : fmtparams) (r : AsyncReader)
    (x1 x2 : Row) (xs : list Row) :
  reader E fd encoding compression buffer_size dialect false args = Ok r ->
  agen_yields (_aiter r) = x1 :: x2 :: xs ->
  fst (next r) = Ok x1 /\
  _header (snd (next r)) = AnextPending /\
  agen_yields (_aiter (snd (next r))) = x2 :: xs /\
  (x1 <> x2 -> fst (next r) <> Ok x2).
Proof.
  intros Hr Hy.
  assert (Hshape : exists g, r = new_reader g false None).
  { unfold reader in Hr.
    destruct (encoding_truthy encoding); inversion Hr; eexists; reflexivity. }
  destruct Hshape as [g ->]. simpl in Hy.
  destruct (anext_yields g Hy) as [H1 H2].
  unfold next, capture_header. simpl.
  destruct (anext g) as [y g']. simpl in *. subst y.
  repeat split; try assumption.
  intros Hne Heq. inversion Heq. contradiction.
Qed.

Lemma first_next_returns_header_row_witness :
  fst (next (sample_reader sample_lines false)) = Ok [str "a"; str "b"] /\
  fst (next (sample_reader sample_lines false)) <> Ok [str "1"; str "2"].
Proof.
  destruct (@first_next_returns_header_row plain_env sample_lines None None
              16384 "excel" [] (sample_reader sample_lines false)
              [str "a"; str "b"] [str "1"; str "2"] [[str "3"; str "4"]]
              eq_refl)
    as [H1 [_ [_ H4]]].
  - vm_compute. reflexivity.
  - split; [exact H1|]. apply H4. vm_compute. discriminate.
Defined.

(** ** The concrete scenario *)

(** C3, as stated, fails: when the source delivers the input in one chunk,
    that chunk is taken as one record, and the tokenizer rejects the line
    breaks inside it; no row is yielded. *)
Lemma sample_in_one_chunk_fails :
  List.concat sample_chunk = List.concat sample_lines /\
  reader plain_env sample_chunk None None 16384 "excel" true [] =
    Ok (sample_reader sample_chunk true) /\
  iterate (sample_reader sample_chunk true) =
    ([], Raised (CsvError "new-line character seen in unquoted field")) /\
  fst (iterate (sample_reader sample_chunk true)) <> sample_rows.
Proof.
  split; [reflexivity|]. split; [reflexivity|].
  split; [vm_compute; reflexivity|]. vm_compute. discriminate.
Qed.

(** C3, amended. When the source delivers the input one line per chunk,
    with [compression=None], [ignore_header=true] and the default dialect,
    iterating the reader yields the three rows, in order, and ends. *)
Theorem sample_line_by_line (E : Env) (dialect : string) (args : fmtparams) :
  csv_reader E = Csv.reader ->
  exists r,
    reader E sample_lines None None 16384 dialect true args = Ok r /\
    iterate r = (sample_rows, Returned).
Proof.
  intros Hcsv. eexists. split; [reflexivity|].
  unfold iterate, reader_compressed, sample_lines. cbn [select_lines].
  cbn -[Csv.reader csv_reader]. rewrite Hcsv. vm_compute. reflexivity.
Qed.

Lemma sample_line_by_line_witness :
  exists r,
    reader plain_env sample_lines None None 16384 "excel" true [] = Ok r /\
    iterate r = (sample_rows, Returned).
Proof.
  exact (sample_line_by_line plain_env "excel" [] eq_refl).
Defined.

(** ** Line reassembly, codec by codec *)

(** C2. On the bzip2 path the retained fragment is yielded after every
    chunk and kept for the next one: when the decompressor emits [ab] and
    then [c] with a line feed, the records are [ab] and [abc] with its
    line feed, so the bytes of [ab] appear in two records and the records
    do not add up to the payload. *)
Theorem open_bzip2_repeats_fragment (c : Codec) (k1 k2 : bytes)
    (st1 st2 : dstate c) :
  decompress c (dinit c) k1 = Ok (bytes_of_string "ab", st1) ->
  decompress c st1 k2 = Ok (line "c", st2) ->
  payload c [k1; k2] = Ok (bytes_of_string "ab" ++ line "c") /\
  agen_yields (open_bzip2 c [k1; k2]) =
    [bytes_of_string "ab"; bytes_of_string "ab" ++ line "c"] /\
  agen_ending (open_bzip2 c [k1; k2]) = Returned /\
  List.concat (agen_yields (open_bzip2 c [k1; k2])) <>
    bytes_of_string "ab" ++ line "c".
Proof.
  intros H1 H2. unfold payload, open_bzip2. simpl. rewrite H1. simpl.
  rewrite H2. simpl. repeat split. discriminate.
Qed.

Lemma open_bzip2_repeats_fragment_witness :
  agen_yields (open_bzip2 stored_codec [bytes_of_string "ab"; line "c"]) =
    [bytes_of_string "ab"; bytes_of_string "ab" ++ line "c"].
Proof.
  exact (proj1 (proj2 (@open_bzip2_repeats_fragment stored_codec
                         (bytes_of_string "ab") (line "c") tt tt
                         eq_refl eq_refl))).
Defined.

(** The sibling paths yield the same payload once. *)
Example open_gzip_yields_fragment_once :
  agen_yields (open_gzip stored_codec [bytes_of_string "ab"; line "c"]) =
    [bytes_of_string "ab" ++ line "c"] /\
  agen_yields (open_zstd stored_codec [bytes_of_string "ab"; line "c"]) =
    [bytes_of_string "ab" ++ line "c"].
Proof. split; reflexivity. Qed.

(** ** Chunking *)

(** C1, as stated, fails: the same bytes, delivered in one chunk or line
    by line with [compression=None], give different records and different
    rows. *)
Lemma records_depend_on_chunking :
  List.concat sample_chunk = List.concat sample_lines /\
  records_of plain_env sample_chunk None <>
    records_of plain_env sample_lines None /\
  agen_yields
    (reader_compressed plain_env sample_chunk None 16384 "excel" []) <>
  agen_yields
    (reader_compressed plain_env sample_lines None 16384 "excel" []).
Proof.
  split; [reflexivity|]. split; vm_compute; discriminate.
Qed.

(** C1, amended. On the gzip path, and on the zstd path over at least one
    chunk, whenever the decompressor emits the same payload over two
    chunkings without failing, the records are the lines of that payload
    and the rows yielded are the same for both chunkings.  With
    [compression=None] there is no reassembly: the records are the chunks
    as delivered, so that their concatenation, not their sequence, is
    independent of the chunking. *)
Theorem chunking_invariance (E : Env) (fd fd' : list bytes) (p : bytes)
    (buffer_size : Z) (dialect : string) (args : fmtparams) :
  (payload_flushed (zlib_decompressobj E) fd = Ok p ->
   payload_flushed (zlib_decompressobj E) fd' = Ok p ->
   records_of E fd (Some "gzip"%string) = splitlines p /\
   records_of E fd' (Some "gzip"%string) = splitlines p /\
   unpull (reader_compressed E fd (Some "gzip"%string) buffer_size dialect
             args) =
   unpull (reader_compressed E fd' (Some "gzip"%string) buffer_size dialect
             args)) /\
  (fd <> [] -> fd' <> [] ->
   payload (zstd_decompressobj E) fd = Ok p ->
   payload (zstd_decompressobj E) fd' = Ok p ->
   records_of E fd (Some "zstd"%string) = splitlines p /\
   records_of E fd' (Some "zstd"%string) = splitlines p /\
   unpull (reader_compressed E fd (Some "zstd"%string) buffer_size dialect
             args) =
   unpull (reader_compressed E fd' (Some "zstd"%string) buffer_size dialect
             args)) /\
  (records_of E fd None = fd /\
   (List.concat fd = List.concat fd' ->
    List.concat (records_of E fd None) =
    List.concat (records_of E fd' None))).
Proof.
  assert (same : forall g g' : agen bytes,
             agen_yields g = splitlines p -> agen_ending g = Returned ->
             agen_yields g' = splitlines p -> agen_ending g' = Returned ->
             unpull (batch_loop E buffer_size dialect args [] 0 g) =
             unpull (batch_loop E buffer_size dialect args [] 0 g')).
  { intros g g' Hy He Hy' He'.
    rewrite (unpull_batch_loop E buffer_size dialect args g).
    rewrite (unpull_batch_loop E buffer_size dialect args g').
    now rewrite (unpull_observed g), (unpull_observed g'), Hy, He, Hy', He'. }
  split; [|split].
  - intros H H'.
    destruct (open_gzip_lines _ _ H) as [Hy He].
    destruct (open_gzip_lines _ _ H') as [Hy' He'].
    unfold records_of, reader_compressed. simpl.
    repeat split; try assumption. now apply same.
  - intros Hne Hne' H H'.
    destruct (open_zstd_lines _ Hne H) as [Hy He].
    destruct (open_zstd_lines _ Hne' H') as [Hy' He'].
    unfold records_of, reader_compressed. simpl.
    repeat split; try assumption. now apply same.
  - unfold records_of. simpl.
    rewrite (proj1 (agen_yields_aiter_source fd)).
    rewrite (proj1 (agen_yields_aiter_source fd')). auto.
Qed.

Lemma chunking_invariance_witness :
  unpull (reader_compressed plain_env sample_chunk (Some "gzip"%string) 8
            "excel" []) =
  unpull (reader_compressed plain_env sample_lines (Some "gzip"%string) 8
            "excel" []).
Proof.
  apply (proj1 (chunking_invariance plain_env sample_chunk sample_lines
                  (List.concat sample_lines) 8 "excel" [])).
  - reflexivity.
  - reflexivity.
Defined.

(** ** The batch assembler *)



(** * Further properties of the readers *)

(** ** Block generators *)

Lemma open_gzip_block_loop_payload (c : Codec) (fd : list bytes) :
  forall (st st' : dstate c) (rest tail : bytes),
    feed c st fd = Ok (rest, st') ->
    flush c st' = Ok tail ->
    List.concat (agen_yields (open_gzip_block_loop c st fd)) = rest ++ tail /\
    List.length (agen_yields (open_gzip_block_loop c st fd)) =
      S (List.length fd) /\
    agen_pulls (open_gzip_block_loop c st fd) = List.length fd /\
    agen_ending (open_gzip_block_loop c st fd) = Returned.
Proof.
  induction fd as [|buf fd IH]; intros st st' rest tail Hfeed Hfl; simpl in *.
  - inversion Hfeed; subst. rewrite Hfl. simpl.
    now rewrite app_nil_r.
  - destruct (decompress c st buf) as [[data st1]|e]; [|discriminate].
    destruct (feed c st1 fd) as [[rest1 st2]|e] eqn:Hrest; [|discriminate].
    inversion Hfeed; subst.
    destruct (IH st1 st' rest1 tail Hrest Hfl) as [H1 [H2 [H3 H4]]].
    simpl. rewrite H1, H2, H3, H4. now rewrite app_assoc.
Qed.

(** X1. When the decompressor does not fail, [open_gzip_block] takes
    every chunk once and yields one block per chunk and one more for the
    flush; the blocks put end to end are the flushed payload. *)
Theorem open_gzip_block_payload (c : Codec) (fd : list bytes) (p : bytes) :
  payload_flushed c fd = Ok p ->
  List.concat (agen_yields (open_gzip_block c fd)) = p /\
  List.length (agen_yields (open_gzip_block c fd)) = S (List.length fd) /\
  agen_pulls (open_gzip_block c fd) = List.length fd /\
  agen_ending (open_gzip_block c fd) = Returned.
Proof.
  unfold payload_flushed, open_gzip_block. intros H.
  destruct (feed c (dinit c) fd) as [[rest st]|e] eqn:Hfeed; [|discriminate].
  destruct (flush c st) as [tail|e] eqn:Hfl; [|discriminate].
  inversion H; subst.
  exact (open_gzip_block_loop_payload c fd (dinit c) Hfeed Hfl).
Qed.

Lemma open_gzip_block_payload_witness :
  List.concat (agen_yields (open_gzip_block stored_codec sample_lines)) =
    List.concat sample_lines /\
  List.length (agen_yields (open_gzip_block stored_codec sample_lines)) =
    4%nat.
Proof.
  destruct (@open_gzip_block_payload stored_codec sample_lines
              (List.concat sample_lines) eq_refl) as [H1 [H2 _]].
  split; [exact H1|exact H2].
Defined.

Lemma open_bzip2_block_loop_payload (c : Codec) (fd : list bytes) :
  forall (st st' : dstate c) (rest : bytes),
    feed c st fd = Ok (rest, st') ->
    List.concat (agen_yields (open_bzip2_block_loop c st fd)) = rest /\
    List.length (agen_yields (open_bzip2_block_loop c st fd)) =
      List.length fd /\
    agen_pulls (open_bzip2_block_loop c st fd) = List.length fd /\
    agen_ending (open_bzip2_block_loop c st fd) = Returned.
Proof.
  induction fd as [|buf fd IH]; intros st st' rest Hfeed; simpl in *.
  - inversion Hfeed; subst. auto.
  - destruct (decompress c st buf) as [[data st1]|e]; [|discriminate].
    destruct (feed c st1 fd) as [[rest1 st2]|e] eqn:Hrest; [|discriminate].
    inversion Hfeed; subst.
    destruct (IH st1 st' rest1 Hrest) as [H1 [H2 [H3 H4]]].
    simpl. now rewrite H1, H2, H3, H4.
Qed.

Lemma open_zstd_block_loop_eq (c : Codec) (fd : list bytes) :
  forall st : dstate c,
    open_zstd_block_loop c st fd = open_bzip2_block_loop c st fd.
Proof.
  induction fd as [|buf fd IH]; intros st; simpl; [reflexivity|].
  destruct (decompress c st buf) as [[data st1]|e]; [|reflexivity].
  now rewrite IH.
Qed.

(** X2. When the decompressor does not fail, [open_bzip2_block] and
    [open_zstd_block] take every chunk once and yield exactly one block
    per chunk (none for an empty source, and no flush); the blocks put end
    to end are the payload. *)
Theorem open_block_payload (c : Codec) (fd : list bytes) (p : bytes) :
  payload c fd = Ok p ->
  (List.concat (agen_yields (open_bzip2_block c fd)) = p /\
   List.length (agen_yields (open_bzip2_block c fd)) = List.length fd /\
   agen_pulls (open_bzip2_block c fd) = List.length fd /\
   agen_ending (open_bzip2_block c fd) = Returned) /\
  (List.concat (agen_yields (open_zstd_block c fd)) = p /\
   List.length (agen_yields (open_zstd_block c fd)) = List.length fd /\
   agen_pulls (open_zstd_block c fd) = List.length fd /\
   agen_ending (open_zstd_block c fd) = Returned).
Proof.
  unfold payload, open_bzip2_block, open_zstd_block. intros H.
  rewrite (open_zstd_block_loop_eq c fd (dinit c)).
  destruct (feed c (dinit c) fd) as [[rest st]|e] eqn:Hfeed; [|discriminate].
  inversion H; subst.
  split; exact (open_bzip2_block_loop_payload c fd (dinit c) Hfeed).
Qed.

Lemma open_block_payload_witness :
  List.concat (agen_yields (open_zstd_block stored_codec sample_lines)) =
    List.concat sample_lines.
Proof.
  exact (proj1 (proj2 (@open_block_payload stored_codec sample_lines
                         (List.concat sample_lines) eq_refl))).
Defined.

(** ** Lines and blocks *)

Lemma but_last_app (A : Type) (X Y : list A) :
  Y <> [] -> but_last (X ++ Y) = X ++ but_last Y.
Proof. intros H. unfold but_last. now apply removelast_app. Qed.

Lemma Forall_last_line (P : bytes -> Prop) (L : list bytes) :
  Forall P L -> L <> [] -> P (last_line L).
Proof.
  induction 1 as [|l L Hl HL IH]; intros Hne; [congruence|].
  destruct L as [|l' L]; [exact Hl|].
  rewrite last_line_cons by discriminate. apply IH. discriminate.
Qed.

Lemma last_line_nonempty (s : bytes) :
  splitlines s <> [] -> last_line (splitlines s) <> [].
Proof.
  apply (@Forall_last_line (fun l => l <> [])), splitlines_nonempty.
Qed.

Lemma but_last_splitlines_app (a b : bytes) :
  but_last (splitlines (a ++ b)) =
  but_last (splitlines a) ++
  but_last (splitlines (last_line (splitlines a) ++ b)).
Proof.
  rewrite splitlines_app.
  destruct (splitlines (last_line (splitlines a) ++ b)) eqn:HY.
  - apply splitlines_nil_inv in HY. apply app_eq_nil in HY.
    destruct HY as [Hl _].
    destruct (splitlines a) eqn:Ha; [reflexivity|].
    exfalso. apply (@last_line_nonempty a); rewrite Ha; [discriminate|].
    exact Hl.
  - apply but_last_app. discriminate.
Qed.

Lemma but_last_splitlines_last_line (s : bytes) :
  but_last (splitlines (last_line (splitlines s))) = [].
Proof.
  rewrite splitlines_last_line. now destruct (truthy (splitlines s)).
Qed.

Lemma open_gzip_loop_blocks (c : Codec) (fd : list bytes) :
  forall (st : dstate c) (seen : bytes),
    let out_buf := last_line (splitlines seen) in
    let lines := open_gzip_loop c st out_buf fd in
    let blocks := open_gzip_block_loop c st fd in
    agen_ending lines = agen_ending blocks /\
    agen_pulls lines = agen_pulls blocks /\
    agen_yields lines =
      match agen_ending blocks with
      | Returned => splitlines (out_buf ++ List.concat (agen_yields blocks))
      | Raised _ =>
          but_last (splitlines (out_buf ++ List.concat (agen_yields blocks)))
      end.
Proof.
  induction fd as [|buf fd IH]; intros st seen; cbv zeta; simpl.
  - destruct (flush c st) as [tail|e]; simpl.
    + rewrite agen_ending_yield_all, agen_yields_yield_all. simpl.
      rewrite !app_nil_r. repeat split.
      induction (splitlines (last_line (splitlines seen) ++ tail));
        simpl; congruence.
    + rewrite app_nil_r, but_last_splitlines_last_line. auto.
  - destruct (decompress c st buf) as [[data st1]|e]; simpl.
    + rewrite agen_ending_yield_all, agen_yields_yield_all.
      rewrite last_line_or_nil.
      destruct (IH st1 (last_line (splitlines seen) ++ data))
        as [He [Hp Hy]].
      cbv zeta in He, Hp, Hy. rewrite He, Hy.
      split; [reflexivity|]. split.
      * f_equal. rewrite <- Hp.
        induction (but_last (splitlines (last_line (splitlines seen) ++ data)));
          simpl; congruence.
      * rewrite app_assoc.
        destruct (agen_ending (open_gzip_block_loop c st1 fd)).
        -- now rewrite <- splitlines_app.
        -- now rewrite <- but_last_splitlines_app.
    + rewrite app_nil_r, but_last_splitlines_last_line. auto.
Qed.

(** X3. [open_gzip] is [open_gzip_block] followed by line splitting: it
    takes the same chunks and ends the same way; when the stream ends
    normally its records are the lines of the blocks put end to end, and
    when the decompressor fails they are those lines without the last one:
    the fragment retained at the time of the failure is not yielded. *)
Theorem open_gzip_lines_of_blocks (c : Codec) (fd : list bytes) :
  agen_ending (open_gzip c fd) = agen_ending (open_gzip_block c fd) /\
  agen_pulls (open_gzip c fd) = agen_pulls (open_gzip_block c fd) /\
  agen_yields (open_gzip c fd) =
    match agen_ending (open_gzip_block c fd) with
    | Returned =>
        splitlines (List.concat (agen_yields (open_gzip_block c fd)))
    | Raised _ =>
        but_last
          (splitlines (List.concat (agen_yields (open_gzip_block c fd))))
    end.
Proof.
  exact (open_gzip_loop_blocks c fd (dinit c) []).
Qed.

(** ** The shape of the records *)

Lemma lines_shape_cons (x : bytes) (L : list bytes) :
  complete_line x = true -> lines_shape L -> lines_shape (x :: L).
Proof.
  intros Hx [H1 H2]. split.
  - destruct L as [|y L]; [constructor|].
    rewrite but_last_cons by discriminate. now constructor.
  - constructor; [now left|assumption].
Qed.

Lemma lines_shape_prepend (c : byte) (L : list bytes) :
  is_lf c = false -> is_cr c = false ->
  lines_shape L -> lines_shape (prepend [c] L).
Proof.
  intros Hlf Hcr [H1 H2].
  assert (Hopen : forall l, open_line l = true -> open_line (c :: l) = true).
  { unfold open_line, is_break. simpl. intros l H.
    rewrite Hlf, Hcr. simpl. apply andb_prop in H. tauto. }
  destruct L as [|l L]; simpl.
  - split; [constructor|]. constructor; [|constructor]. right.
    unfold open_line, is_break. simpl. now rewrite Hlf, Hcr.
  - split.
    + destruct L as [|l' L]; [constructor|].
      rewrite but_last_cons in * by discriminate.
      inversion H1; subst. constructor; [|assumption].
      simpl. now rewrite Hlf, Hcr.
    + inversion H2; subst. constructor; [|assumption].
      destruct H3 as [H3|H3]; [left|right; now apply Hopen].
      simpl. now rewrite Hlf, Hcr.
Qed.

Lemma splitlines_shape (s : bytes) : lines_shape (splitlines s).
Proof.
  remember (List.length s) as n eqn:Hn.
  revert s Hn. induction n as [n IH] using lt_wf_ind. intros s Hn.
  destruct s as [|c s]; [split; constructor|]. simpl in Hn.
  destruct (is_lf c) eqn:Hlf.
  - rewrite splitlines_lf by assumption.
    apply lines_shape_cons; [simpl; now rewrite Hlf|].
    apply (IH (List.length s)); [lia|reflexivity].
  - destruct (is_cr c) eqn:Hcr.
    + destruct s as [|c' s].
      * rewrite splitlines_cr_end by assumption.
        apply lines_shape_cons; [simpl; now rewrite Hlf, Hcr|].
        split; constructor.
      * simpl in Hn. destruct (is_lf c') eqn:Hlf'.
        -- rewrite splitlines_crlf by assumption.
           apply lines_shape_cons; [simpl; now rewrite Hlf, Hcr, Hlf'|].
           apply (IH (List.length s)); [lia|reflexivity].
        -- rewrite splitlines_cr by assumption.
           apply lines_shape_cons; [simpl; now rewrite Hlf, Hcr|].
           apply (IH (List.length (c' :: s))); [simpl; lia|reflexivity].
    + rewrite splitlines_other by assumption.
      apply lines_shape_prepend; try assumption.
      apply (IH (List.length s)); [lia|reflexivity].
Qed.

(** X4. When the decompressor does not fail, the records of [open_gzip]
    put end to end are the flushed payload, every record but the last is
    a line with its terminator (bytes that are no line break, then a line
    feed, a carriage return, or both), and the last is such a line or a
    non-empty remainder without any line break. *)
Theorem open_gzip_records_shape (c : Codec) (fd : list bytes) (p : bytes) :
  payload_flushed c fd = Ok p ->
  List.concat (agen_yields (open_gzip c fd)) = p /\
  Forall (fun l => complete_line l = true)
    (but_last (agen_yields (open_gzip c fd))) /\
  Forall (fun l => complete_line l = true \/ open_line l = true)
    (agen_yields (open_gzip c fd)).
Proof.
  intros H. destruct (open_gzip_lines c fd H) as [Hy _]. rewrite Hy.
  split; [apply concat_splitlines|apply splitlines_shape].
Qed.

Lemma open_gzip_records_shape_witness :
  List.concat
    (agen_yields (open_gzip stored_codec [bytes_of_string "ab"; line "c"])) =
  bytes_of_string "ab" ++ line "c".
Proof.
  exact (proj1 (@open_gzip_records_shape stored_codec
                  [bytes_of_string "ab"; line "c"]
                  (bytes_of_string "ab" ++ line "c") eq_refl)).
Defined.

(** ** The bzip2 path *)

Lemma subseq_refl (A : Type) (xs : list A) : subseq xs xs.
Proof. induction xs; constructor; assumption. Qed.

Lemma subseq_app_head (A : Type) (zs xs ys : list A) :
  subseq xs ys -> subseq (zs ++ xs) (zs ++ ys).
Proof. intros H. induction zs; simpl; [assumption|now constructor]. Qed.

Lemma subseq_skip_head (A : Type) (zs xs ys : list A) :
  subseq xs ys -> subseq xs (zs ++ ys).
Proof. intros H. induction zs; simpl; [assumption|now constructor]. Qed.

Lemma subseq_length (A : Type) (xs ys : list A) :
  subseq xs ys -> (List.length xs <= List.length ys)%nat.
Proof. induction 1; simpl; lia. Qed.

(** What one round of the loop yields: every line of the buffer. *)
Lemma yield_all_with_last (L : list bytes) (k : agen bytes) :
  agen_yields
    (yield_all (but_last L) (if truthy L then Yield (last_line L) k else k)) =
  L ++ agen_yields k.
Proof.
  rewrite agen_yields_yield_all.
  destruct L as [|l L]; [reflexivity|].
  assert (Hne : l :: L <> []) by discriminate.
  simpl truthy. cbv iota. simpl agen_yields.
  rewrite (app_removelast_last [] Hne) at 3.
  now rewrite <- app_assoc.
Qed.

Lemma open_bzip2_loop_no_loss (c : Codec) (fd : list bytes) :
  forall (st st' : dstate c) (out_buf rest : bytes),
    feed c st fd = Ok (rest, st') ->
    subseq (splitlines (out_buf ++ rest))
      (splitlines out_buf ++ agen_yields (open_bzip2_loop c st out_buf fd)) /\
    agen_ending (open_bzip2_loop c st out_buf fd) = Returned /\
    agen_pulls (open_bzip2_loop c st out_buf fd) = List.length fd.
Proof.
  induction fd as [|buf fd IH]; intros st st' out_buf rest Hfeed;
    simpl in *.
  - inversion Hfeed; subst. rewrite !app_nil_r.
    split; [apply subseq_refl|auto].
  - destruct (decompress c st buf) as [[data st1]|e]; [|discriminate].
    destruct (feed c st1 fd) as [[rest1 st2]|e] eqn:Hrest; [|discriminate].
    inversion Hfeed; subst.
    rewrite last_line_or_nil.
    destruct (IH st1 st' (last_line (splitlines (out_buf ++ data))) rest1
                Hrest) as [Hs [He Hp]].
    split; [|split].
    + rewrite yield_all_with_last.
      apply subseq_skip_head.
      rewrite app_assoc, splitlines_app.
      destruct (splitlines (out_buf ++ data)) as [|l L] eqn:HL.
      * simpl in *. exact Hs.
      * assert (Hne : l :: L <> []) by discriminate.
        rewrite (app_removelast_last [] Hne) at 3.
        rewrite <- app_assoc. apply subseq_app_head.
        rewrite <- HL in *. rewrite splitlines_last_line in Hs.
        rewrite HL in Hs. simpl truthy in Hs. cbv iota in Hs.
        rewrite HL. exact Hs.
    + destruct (truthy (splitlines (out_buf ++ data))); simpl;
        now rewrite agen_ending_yield_all.
    + f_equal.
      destruct (truthy (splitlines (out_buf ++ data)));
        induction (but_last (splitlines (out_buf ++ data))); simpl;
        congruence.
Qed.

(** X5. When the decompressor does not fail, [open_bzip2] takes every
    chunk once, ends normally and loses no line: the lines of the payload
    are among its records, in order (other records may stand between
    them).  Over a single chunk its records are exactly the lines of the
    payload. *)
Theorem open_bzip2_no_line_lost (c : Codec) (fd : list bytes) (p : bytes) :
  payload c fd = Ok p ->
  subseq (splitlines p) (agen_yields (open_bzip2 c fd)) /\
  agen_ending (open_bzip2 c fd) = Returned /\
  agen_pulls (open_bzip2 c fd) = List.length fd /\
  (List.length fd = 1%nat -> agen_yields (open_bzip2 c fd) = splitlines p).
Proof.
  unfold payload, open_bzip2. intros H.
  destruct (feed c (dinit c) fd) as [[rest st]|e] eqn:Hfeed; [|discriminate].
  inversion H; subst.
  destruct (open_bzip2_loop_no_loss c fd (dinit c) [] Hfeed)
    as [Hs [He Hp]].
  repeat split; try assumption.
  intros Hone. destruct fd as [|buf [|buf' fd]]; try discriminate.
  simpl in *.
  destruct (decompress c (dinit c) buf) as [[data st1]|e]; [|discriminate].
  inversion Hfeed; subst. rewrite app_nil_r.
  rewrite yield_all_with_last. simpl. now rewrite app_nil_r.
Qed.

Lemma open_bzip2_no_line_lost_witness :
  subseq (splitlines (bytes_of_string "ab" ++ line "c"))
    (agen_yields (open_bzip2 stored_codec [bytes_of_string "ab"; line "c"])).
Proof.
  exact (proj1 (@open_bzip2_no_line_lost stored_codec
                  [bytes_of_string "ab"; line "c"]
                  (bytes_of_string "ab" ++ line "c") eq_refl)).
Defined.

Lemma last_line_app (X Y : list bytes) :
  Y <> [] -> last_line (X ++ Y) = last_line Y.
Proof.
  intros HY. induction X as [|x X IH]; [reflexivity|].
  simpl app. rewrite last_line_cons; [exact IH|].
  destruct X; simpl; [exact HY|discriminate].
Qed.

Lemma last_line_splitlines_app (a b : bytes) :
  last_line (splitlines (a ++ b)) =
  last_line (splitlines (last_line (splitlines a) ++ b)).
Proof.
  rewrite splitlines_app.
  destruct (splitlines (last_line (splitlines a) ++ b)) as [|y Y] eqn:HY.
  - apply splitlines_nil_inv in HY. apply app_eq_nil in HY.
    destruct HY as [Hl _]. rewrite app_nil_r.
    destruct (splitlines a) eqn:Ha; [reflexivity|].
    exfalso. apply (@last_line_nonempty a); rewrite Ha; [discriminate|].
    exact Hl.
  - apply last_line_app. discriminate.
Qed.

Lemma open_bzip2_loop_idle_chunk (c : Codec) (fd : list bytes) :
  forall (st st1 st2 : dstate c) (seen rest k : bytes),
    let out_buf := last_line (splitlines seen) in
    feed c st fd = Ok (rest, st1) ->
    decompress c st1 k = Ok ([], st2) ->
    agen_yields (open_bzip2_loop c st out_buf (fd ++ [k])) =
    agen_yields (open_bzip2_loop c st out_buf fd) ++
    splitlines (last_line (splitlines (out_buf ++ rest))).
Proof.
  induction fd as [|buf fd IH]; intros st st1 st2 seen rest k out_buf
    Hfeed Hk; subst out_buf; simpl in *.
  - inversion Hfeed; subst. rewrite Hk. rewrite !app_nil_r.
    rewrite yield_all_with_last. simpl. rewrite app_nil_r.
    rewrite splitlines_last_line.
    destruct (splitlines seen) eqn:Hs; [reflexivity|].
    simpl truthy. cbv iota. rewrite <- Hs.
    change (last_line [last_line (splitlines seen)])
      with (last_line (splitlines seen)).
    now rewrite splitlines_last_line, Hs.
  - destruct (decompress c st buf) as [[data st']|e]; [|discriminate].
    destruct (feed c st' fd) as [[rest1 st'']|e] eqn:Hrest; [|discriminate].
    inversion Hfeed; subst.
    rewrite last_line_or_nil, !yield_all_with_last.
    rewrite (IH st' st1 st2 (last_line (splitlines seen) ++ data) rest1 k
               Hrest Hk).
    rewrite <- app_assoc. do 3 f_equal.
    symmetry. rewrite app_assoc. apply last_line_splitlines_app.
Qed.

(** X6. On the bzip2 path a chunk for which the decompressor emits
    nothing is not neutral: appended to a source, it makes [open_bzip2]
    yield the last line of the payload once more. *)
Theorem open_bzip2_idle_chunk (c : Codec) (fd : list bytes) (p k : bytes)
    (st1 st2 : dstate c) :
  feed c (dinit c) fd = Ok (p, st1) ->
  decompress c st1 k = Ok ([], st2) ->
  payload c (fd ++ [k]) = Ok p /\
  agen_yields (open_bzip2 c (fd ++ [k])) =
    agen_yields (open_bzip2 c fd) ++
    (if truthy p then [last_line (splitlines p)] else []).
Proof.
  intros Hfeed Hk. split.
  - unfold payload.
    assert (H : forall fd0 (st : dstate c) r,
               feed c st fd0 = Ok (r, st1) ->
               feed c st (fd0 ++ [k]) = Ok (r, st2)).
    { induction fd0 as [|b fd0 IH0]; intros st r Hf; simpl in *.
      - inversion Hf; subst. now rewrite Hk.
      - destruct (decompress c st b) as [[d s']|e]; [|discriminate].
        destruct (feed c s' fd0) as [[r1 s'']|e] eqn:Hr; [|discriminate].
        inversion Hf; subst. now rewrite (IH0 s' r1 Hr). }
    now rewrite (H fd (dinit c) p Hfeed).
  - unfold open_bzip2.
    pose proof (open_bzip2_loop_idle_chunk c fd (dinit c) [] k Hfeed Hk)
      as H.
    cbv zeta in H.
    change (last_line (splitlines [])) with (@nil byte) in H.
    simpl app in H. rewrite H. f_equal.
    rewrite splitlines_last_line. now rewrite truthy_splitlines.
Qed.

Lemma open_bzip2_idle_chunk_witness :
  agen_yields (open_bzip2 stored_codec [line "a"; []]) =
  agen_yields (open_bzip2 stored_codec [line "a"]) ++ [line "a"].
Proof.
  exact (proj2 (@open_bzip2_idle_chunk stored_codec [line "a"] (line "a") []
                  tt tt eq_refl eq_refl)).
Defined.

(** ** [open_compressed] *)




(** ** The columnar path *)

Lemma anext_pulls_pull_all (A : Type) (fd : list bytes) (k : agen A) :
  anext_pulls (pull_all fd k) = (List.length fd + anext_pulls k)%nat.
Proof. induction fd as [|b fd IH]; simpl; [reflexivity|now rewrite IH]. Qed.

Lemma agen_pulls_pull_all (A : Type) (fd : list bytes) (k : agen A) :
  agen_pulls (pull_all fd k) = (List.length fd + agen_pulls k)%nat.
Proof. induction fd as [|b fd IH]; simpl; [reflexivity|now rewrite IH]. Qed.

Lemma unpull_pull_all (A : Type) (fd : list bytes) (k : agen A) :
  unpull (pull_all fd k) = unpull k.
Proof. induction fd as [|b fd IH]; simpl; [reflexivity|exact IH]. Qed.

Lemma agen_yields_pull_all (A : Type) (fd : list bytes) (k : agen A) :
  agen_yields (pull_all fd k) = agen_yields k.
Proof. induction fd as [|b fd IH]; simpl; [reflexivity|exact IH]. Qed.

Lemma agen_ending_pull_all (A : Type) (fd : list bytes) (k : agen A) :
  agen_ending (pull_all fd k) = agen_ending k.
Proof. induction fd as [|b fd IH]; simpl; [reflexivity|exact IH]. Qed.

Lemma table_rows_no_pull (rows : list (list cell)) :
  anext_pulls (table_rows rows) = 0%nat /\
  agen_pulls (table_rows rows) = 0%nat.
Proof.
  induction rows as [|row rows [IH1 IH2]]; simpl; [auto|].
  destruct (row_texts row); simpl; auto.
Qed.

(** X8. With the encoding ['parquet'] or ['orc'], [reader_columnar] takes
    every chunk of the source before it yields its first row or fails, and
    takes nothing afterwards. *)
Theorem reader_columnar_loads_first (E : Env) (fd : list bytes)
    (encoding : string) (compression : option string) (buffer_size : Z)
    (ignore_header : bool) :
  In encoding ["parquet"; "orc"]%string ->
  anext_pulls
    (reader_columnar E fd encoding compression buffer_size ignore_header) =
    List.length fd /\
  agen_pulls
    (reader_columnar E fd encoding compression buffer_size ignore_header) =
    List.length fd.
Proof.
  intros Hin.
  assert (Hload : forall read_table : bytes -> result Table,
             let g :=
               pull_all fd
                 match read_table (List.concat fd) with
                 | Err e => Raise e
                 | Ok table =>
                     if negb ignore_header then
                       Yield (columns table) (table_rows (itertuples table))
                     else table_rows (itertuples table)
                 end in
             anext_pulls g = List.length fd /\
             agen_pulls g = List.length fd).
  { intros read_table. cbv zeta.
    rewrite anext_pulls_pull_all, agen_pulls_pull_all.
    destruct (read_table (List.concat fd)) as [t|e]; simpl; [|lia].
    destruct (table_rows_no_pull (itertuples t)) as [H1 H2].
    unfold Row in *.
    destruct ignore_header; simpl; rewrite ?H1, ?H2; lia. }
  destruct Hin as [<-|[<-|[]]].
  - exact (Hload (pd_read_parquet E)).
  - exact (Hload (orc_read_table E)).
Qed.

Lemma reader_columnar_loads_first_witness :
  anext_pulls
    (reader_columnar whole_line_env sample_lines "orc" None 16384 false) =
  3%nat.
Proof.
  apply (@reader_columnar_loads_first whole_line_env sample_lines "orc" None
           16384 false).
  simpl. auto.
Defined.

Lemma table_rows_texts (rows : list (list cell)) (rs : list Row) :
  table_texts rows = Some rs ->
  agen_yields (table_rows rows) = rs /\
  agen_ending (table_rows rows) = Returned.
Proof.
  revert rs. induction rows as [|row rows IH]; intros rs H; simpl in *.
  - inversion H; subst. auto.
  - destruct (row_texts row) as [r|]; [|discriminate].
    destruct (table_texts rows) as [rs'|]; [|discriminate].
    inversion H; subst. destruct (IH rs' eq_refl) as [H1 H2].
    simpl. now rewrite H1, H2.
Qed.

(** X9. With the encoding ['parquet'], when the table decoder accepts the
    spooled bytes and every [bytes] cell decodes, [reader_columnar] yields
    the rows of the table in order, as text, and ends normally; with
    [ignore_header=false] the column labels come first, as one more
    row. *)
Theorem reader_columnar_rows (E : Env) (fd : list bytes)
    (compression : option string) (buffer_size : Z) (ignore_header : bool)
    (table : Table) (rs : list Row) :
  pd_read_parquet E (List.concat fd) = Ok table ->
  table_texts (itertuples table) = Some rs ->
  agen_yields
    (reader_columnar E fd "parquet" compression buffer_size ignore_header) =
    (if ignore_header then rs else columns table :: rs) /\
  agen_ending
    (reader_columnar E fd "parquet" compression buffer_size ignore_header) =
    Returned.
Proof.
  intros Hdec Hrs. destruct (table_rows_texts _ Hrs) as [Hy He].
  unfold reader_columnar, open_parquet_pandas. simpl.
  rewrite agen_yields_pull_all, agen_ending_pull_all, Hdec.
  destruct ignore_header; simpl; now rewrite Hy, He.
Qed.

Lemma reader_columnar_rows_witness :
  agen_yields
    (reader_columnar whole_line_env sample_lines "parquet" None 16384 false) =
  [[[110%N]; [118%N]]; [[97%N]; [49%N]]; [[98%N]; [50%N]]].
Proof.
  exact (proj1 (@reader_columnar_rows whole_line_env sample_lines None 16384
                  false sample_table
                  [[[97%N]; [49%N]]; [[98%N]; [50%N]]] eq_refl eq_refl)).
Defined.

(** X10. On the columnar path the rows do not depend on how the source
    cuts its bytes into chunks, nor on [compression] and [buffer_size]:
    two sources with the same bytes give the same rows and the same
    ending. *)
Theorem reader_columnar_chunking (E : Env) (fd fd' : list bytes)
    (encoding : string) (compression compression' : option string)
    (buffer_size buffer_size' : Z) (ignore_header : bool) :
  List.concat fd = List.concat fd' ->
  unpull
    (reader_columnar E fd encoding compression buffer_size ignore_header) =
  unpull
    (reader_columnar E fd' encoding compression' buffer_size' ignore_header).
Proof.
  intros H.
  unfold reader_columnar, open_parquet_pandas, open_orc_pandas,
    open_arrow_pandas.
  destruct (encoding =? "parquet")%string;
    [now rewrite !unpull_pull_all, H|].
  destruct (encoding =? "orc")%string;
    [now rewrite !unpull_pull_all, H|reflexivity].
Qed.

Lemma reader_columnar_chunking_witness :
  unpull
    (reader_columnar whole_line_env sample_chunk "parquet" None 16384 false) =
  unpull
    (reader_columnar whole_line_env sample_lines "parquet"
       (Some "gzip"%string) 1 false).
Proof.
  apply reader_columnar_chunking. reflexivity.
Defined.

(** ** Header and iteration *)

(** X11. The header is not kept: on a reader made with
    [ignore_header=false] and no header, a second [header()] fails with
    [RuntimeError] (the awaitable stored by the first call has been
    awaited), and takes no row. *)
Theorem header_not_cached (g : agen Row) :
  let r1 := snd (header (new_reader g false None)) in
  header r1 = (Err RuntimeError, r1) /\
  _aiter r1 = snd (anext g).
Proof.
  cbv zeta. unfold header, capture_header. simpl.
  destruct (anext g) as [x g']. simpl. split; reflexivity.
Qed.

(** X12. Iterating a reader gives every row of its row generator, the
    first included, and ends as the generator does, whatever
    [ignore_header] is and whether or not a header was given: iteration
    alone never sets the header row apart. *)
Theorem iteration_gives_every_row (g : agen Row) (ignore_header : bool)
    (h : option (list text)) :
  agen_ending g <> Raised StopAsyncIteration ->
  iterate (new_reader g ignore_header h) = (agen_yields g, agen_ending g).
Proof.
  intros H. now apply (iterate_all (new_reader g ignore_header h)).
Qed.

Lemma iteration_gives_every_row_witness :
  iterate (sample_reader sample_lines false) = (sample_rows, Returned).
Proof.
  refine (eq_trans
            (@iteration_gives_every_row
               (reader_compressed plain_env sample_lines None 16384 "excel"
                  [])
               false None _) _).
  - vm_compute. discriminate.
  - vm_compute. reflexivity.
Defined.

(** X13. On a reader made with [ignore_header=false], [header()] called
    first returns the first row, and the iteration that follows gives the
    rows after it, none of them missing. *)
Theorem header_then_iterate (g : agen Row) (x : Row) (xs : list Row) :
  agen_yields g = x :: xs ->
  agen_ending g <> Raised StopAsyncIteration ->
  fst (header (new_reader g false None)) = Ok x /\
  iterate (snd (header (new_reader g false None))) = (xs, agen_ending g).
Proof.
  intros Hy Hend. unfold header, capture_header. simpl.
  destruct (anext_cases g) as [[Hnil _]|[y [H1 [H2 H3]]]];
    [rewrite Hnil in Hy; discriminate|].
  destruct (anext g) as [r g']. simpl in *. subst r.
  rewrite Hy in H2. inversion H2; subst. split; [reflexivity|].
  rewrite <- H3.
  apply (iterate_all {| _aiter := g'; _ignore_header := false;
                        _header := AnextAwaited |}).
  simpl. now rewrite H3.
Qed.

Lemma header_then_iterate_witness :
  iterate (snd (header (sample_reader sample_lines false))) =
  ([[str "1"; str "2"]; [str "3"; str "4"]], Returned).
Proof.
  refine (proj2 (@header_then_iterate
                   (reader_compressed plain_env sample_lines None 16384
                      "excel" [])
                   [str "a"; str "b"]
                   [[str "1"; str "2"]; [str "3"; str "4"]] _ _)).
  - vm_compute. reflexivity.
  - vm_compute. discriminate.
Defined.

(** X14. On a reader made with [ignore_header=false], a [next()] that
    comes before any [header()] returns the first row, and the [header()]
    called after it returns the second row and takes it out of the
    iteration. *)
Theorem next_then_header (g : agen Row) (x1 x2 : Row) (xs : list Row) :
  agen_yields g = x1 :: x2 :: xs ->
  let r1 := snd (next (new_reader g false None)) in
  fst (next (new_reader g false None)) = Ok x1 /\
  fst (header r1) = Ok x2 /\
  agen_yields (_aiter (snd (header r1))) = xs.
Proof.
  intros Hy. cbv zeta.
  destruct (anext_yields g Hy) as [H1 H2].
  unfold next, capture_header. simpl.
  destruct (anext g) as [y g']. simpl in *.
  split; [exact H1|].
  destruct (anext_yields g' H2) as [H3 H4].
  unfold header, capture_header. simpl.
  destruct (anext g') as [y' g'']. simpl in *. split; assumption.
Qed.

Lemma next_then_header_witness :
  fst (header (snd (next (sample_reader sample_lines false)))) =
  Ok [str "1"; str "2"].
Proof.
  refine (proj1 (proj2 (@next_then_header
                          (reader_compressed plain_env sample_lines None
                             16384 "excel" [])
                          [str "a"; str "b"] [str "1"; str "2"]
                          [[str "3"; str "4"]] _))).
  vm_compute. reflexivity.
Defined.

(** ** Batching and the threshold *)

Lemma single_records_snoc (delimiter : N) (ts : list text) (t : text)
    (rows : list Row) (row : Row) :
  single_records delimiter ts = Some rows ->
  single_record delimiter t = Some row ->
  single_records delimiter (ts ++ [t]) = Some (rows ++ [row]).
Proof.
  revert rows. induction ts as [|t0 ts IH]; intros rows Hts Ht; simpl in *.
  - inversion Hts; subst. now rewrite Ht.
  - destruct (single_record delimiter t0) as [r0|]; [|discriminate].
    destruct (single_records delimiter ts) as [rs|]; [|discriminate].
    inversion Hts; subst. now rewrite (IH rs eq_refl Ht).
Qed.

(** Over whole records the tokenizer works record by record. *)
Lemma csv_records_single (delimiter : N) (ts : list text) :
  forall rows : list Row,
    single_records delimiter ts = Some rows ->
    Csv.records delimiter Csv.parse_reset ts = (rows, None).
Proof.
  induction ts as [|t ts IH]; intros rows H; simpl in *.
  - inversion H; subst. reflexivity.
  - unfold single_record in H.
    destruct (Csv.parse_line delimiter Csv.parse_reset t) as [p|e];
      [|discriminate].
    destruct (Csv.at_start_record p); [|discriminate].
    destruct (single_records delimiter ts) as [rs|]; [|discriminate].
    inversion H; subst. now rewrite (IH rs eq_refl).
Qed.

Lemma csv_reader_single (dialect : string) (delimiter : N) (ts : list text)
    (rows : list Row) :
  Csv.delimiter_of dialect = Some delimiter ->
  single_records delimiter ts = Some rows ->
  Csv.reader ts dialect [] = (rows, None).
Proof.
  intros Hd Hts. unfold Csv.reader. rewrite Hd.
  now apply csv_records_single.
Qed.

Lemma batch_loop_single_records (E : Env) (buffer_size : Z)
    (dialect : string) (delimiter : N) (g : agen bytes) :
  csv_reader E = Csv.reader ->
  Csv.delimiter_of dialect = Some delimiter ->
  agen_ending g = Returned ->
  forall (buffer texts : list text) (brows rows : list Row) (n : Z),
    single_records delimiter buffer = Some brows ->
    decode_lines (agen_yields g) = Some texts ->
    single_records delimiter texts = Some rows ->
    agen_yields (batch_loop E buffer_size dialect [] buffer n g) =
      brows ++ rows /\
    agen_ending (batch_loop E buffer_size dialect [] buffer n g) = Returned.
Proof.
  intros Hcsv Hd.
  induction g as [| |k IH|l k IH]; simpl; intros Hend.
  - intros buffer texts brows rows n Hb Ht Hr.
    inversion Ht; subst. simpl in Hr. inversion Hr; subst.
    rewrite app_nil_r.
    destruct buffer as [|t buffer]; [simpl in Hb; inversion Hb; auto|].
    simpl truthy. cbv iota. unfold yield_rows.
    rewrite Hcsv, (@csv_reader_single _ _ _ _ Hd Hb). simpl.
    now rewrite agen_yields_yield_all, agen_ending_yield_all, app_nil_r.
  - discriminate.
  - now apply IH.
  - intros buffer texts brows rows n Hb Ht Hr.
    destruct (decode_utf8 l) as [s|]; [|discriminate].
    destruct (decode_lines (agen_yields k)) as [ts|] eqn:Hk;
      [|discriminate].
    simpl in Ht. inversion Ht; subst. simpl in Hr.
    destruct (single_record delimiter s) as [r|] eqn:Hs; [|discriminate].
    destruct (single_records delimiter ts) as [rs|] eqn:Hts;
      [|discriminate].
    inversion Hr; subst.
    pose proof (@single_records_snoc _ _ _ _ _ Hb Hs) as Hb'.
    replace (brows ++ r :: rs) with ((brows ++ [r]) ++ rs)
      by now rewrite <- app_assoc.
    destruct (buffer_size <=? n + len l)%Z.
    + unfold yield_rows.
      rewrite Hcsv, (@csv_reader_single _ _ _ _ Hd Hb'). simpl.
      rewrite agen_yields_yield_all, agen_ending_yield_all.
      destruct (IH Hend [] ts [] rs 0%Z eq_refl eq_refl Hts) as [Hy He].
      now rewrite Hy, He.
    + now apply (IH Hend (buffer ++ [s]) ts (brows ++ [r]) rs).
Qed.

(** X15. With the csv tokenizer, a registered dialect and no extra
    argument: when every record decodes and is a whole record on its own
    (tokenized from the start of a record, it is not rejected and does not
    end inside a quoted field), the rows of [reader_compressed] are one
    per record, each the tokenization of that record alone, and the
    generator ends normally, for every [buffer_size]. *)
Theorem whole_records_one_row_each (E : Env) (fd : list bytes)
    (compression : option string) (buffer_size : Z) (dialect : string)
    (delimiter : N) (lines : agen bytes) (texts : list text)
    (rows : list Row) :
  csv_reader E = Csv.reader ->
  Csv.delimiter_of dialect = Some delimiter ->
  select_lines E fd compression = Ok lines ->
  agen_ending lines = Returned ->
  decode_lines (agen_yields lines) = Some texts ->
  single_records delimiter texts = Some rows ->
  agen_yields (reader_compressed E fd compression buffer_size dialect []) =
    rows /\
  agen_ending (reader_compressed E fd compression buffer_size dialect []) =
    Returned.
Proof.
  intros Hcsv Hd Hsel Hend Hdec Hrows.
  unfold reader_compressed. rewrite Hsel.
  exact (@batch_loop_single_records E buffer_size dialect delimiter lines
           Hcsv Hd Hend [] texts [] rows 0%Z eq_refl Hdec Hrows).
Qed.

Lemma whole_records_one_row_each_witness :
  agen_yields (reader_compressed plain_env sample_lines None 5 "excel" []) =
    sample_rows /\
  agen_yields (reader_compressed plain_env sample_lines None 16384 "excel" [])
    = sample_rows.
Proof.
  split.
  - refine (proj1 (@whole_records_one_row_each plain_env sample_lines None 5
                     "excel" 44%N (aiter_source sample_lines)
                     [str "a,b" ++ [10%N]; str "1,2" ++ [10%N];
                      str "3,4" ++ [10%N]] sample_rows
                     eq_refl eq_refl eq_refl eq_refl _ _));
      vm_compute; reflexivity.
  - refine (proj1 (@whole_records_one_row_each plain_env sample_lines None
                     16384 "excel" 44%N (aiter_source sample_lines)
                     [str "a,b" ++ [10%N]; str "1,2" ++ [10%N];
                      str "3,4" ++ [10%N]] sample_rows
                     eq_refl eq_refl eq_refl eq_refl _ _));
      vm_compute; reflexivity.
Defined.

(** What the hypothesis excludes: a quoted field that runs over two
    records is one row when the records share a batch, and two rows when
    the threshold parts them. *)
Example quoted_field_across_batches :
  agen_yields
    (reader_compressed plain_env
       [[x22; x61; LF]; [x62; x22; LF]]
       None 16384 "excel" []) <>
  agen_yields
    (reader_compressed plain_env
       [[x22; x61; LF]; [x62; x22; LF]]
       None 1 "excel" []).
Proof. vm_compute. discriminate. Qed.







Lemma decode_lines_cons_none (r : bytes) (rs : list bytes) (s : text) :
  decode_utf8 r = Some s -> decode_lines (r :: rs) = None ->
  decode_lines rs = None.
Proof.
  intros Hr H. simpl in H. rewrite Hr in H.
  destruct (decode_lines rs); [discriminate|reflexivity].
Qed.

Lemma batch_loop_undecodable (E : Env) (buffer_size : Z) (dialect : string)
    (args : fmtparams) (g : agen bytes) :
  forall (buffer : list text) (n : Z),
    decode_lines (agen_yields g) = None ->
    agen_ending (batch_loop E buffer_size dialect args buffer n g) <>
    Returned.
Proof.
  induction g as [| |k IH|l k IH]; intros buffer n Hdec; simpl in *.
  - discriminate.
  - discriminate.
  - now apply IH.
  - destruct (decode_utf8 l) as [s|] eqn:Hl; [|discriminate].
    pose proof (decode_lines_cons_none l (agen_yields k) Hl) as Hk.
    simpl in Hk. rewrite Hl in Hk. specialize (Hk Hdec).
    destruct (buffer_size <=? n + len l)%Z; [|now apply IH].
    unfold yield_rows. rewrite agen_ending_yield_all.
    destruct (snd (csv_reader E (buffer ++ [s]) dialect args));
      [discriminate|now apply IH].
Qed.

(** X18. A record that is not valid UTF-8 is never passed over: whatever
    the threshold and the tokenizer, [reader_compressed] then ends with an
    exception, not with a normal return. *)
Theorem undecodable_record_raises (E : Env) (fd : list bytes)
    (compression : option string) (buffer_size : Z) (dialect : string)
    (args : fmtparams) (lines : agen bytes) :
  select_lines E fd compression = Ok lines ->
  decode_lines (agen_yields lines) = None ->
  agen_ending (reader_compressed E fd compression buffer_size dialect args)
    <> Returned.
Proof.
  intros Hsel Hdec. unfold reader_compressed. rewrite Hsel.
  now apply batch_loop_undecodable.
Qed.

Lemma undecodable_record_raises_witness :
  agen_ending
    (reader_compressed plain_env [line "a"; [xff; x0a]; line "b"] None 2
       "excel" []) <> Returned.
Proof.
  apply (@undecodable_record_raises plain_env [line "a"; [xff; x0a]; line "b"]
           None 2 "excel" [] (aiter_source [line "a"; [xff; x0a]; line "b"])).
  - reflexivity.
  - vm_compute. reflexivity.
Defined.
